(** * Idleon spice optimizer: entity model, requirement curve, progressive
      simulator and display formatting.

    A shallow embedding of [models.py], [simulation.py] and the two
    formatting functions of [utils.py].

    Numbers.  Python [int] is [Z].  Python [float] is modelled by exact
    rational arithmetic ([Q], compared with [Qeq]/[Qle]); the only
    non-finite value the program creates, [float("inf")] in
    [next_fill_time], is the constructor [PInf] of [time].  Rounding,
    overflow and NaN of binary64 are outside this model: every statement
    below is about the program with exact arithmetic.

    Generators.  [simulate_progressive] is a Python generator.  It is
    modelled as an explicit resumable machine: a value of type [Generator]
    is the suspended frame, [gen_next] is one call of [next()], returning
    the yielded tuple or [None] for [StopIteration].  The three lists a
    tuple carries are the generator's own list objects, which later steps
    only extend by [append], and every [append] is followed by a [yield]
    before the generator can stop; a tuple is therefore recorded with the
    contents the lists have at the moment of the [yield]. *)

From Stdlib Require Import ZArith QArith Qround Qabs Qpower Lqa Lia List String Ascii Bool.
From Stdlib Require Import DecimalString.
Import ListNotations.

Local Open Scope Q_scope.

(** ** Numbers *)

(** [x < y] on floats, as a boolean. *)
Definition Qlt_bool (x y : Q) : bool := negb (Qle_bool y x).

(** [str(n)] for a Python int. *)
Definition str_int (n : Z) : string := NilZero.string_of_int (Z.to_int n).

(** [int(x)] for a float: truncation toward zero. *)
Definition int_of_float (x : Q) : Z := Z.quot (Qnum x) (Zpos (Qden x)).

(** [round(x)] for a float, one argument: the nearest integer, a tie going
    to the even neighbour. *)
Definition py_round (x : Q) : Z :=
  let f := Qfloor x in
  match Qcompare (x - inject_Z f) (1 # 2) with
  | Lt => f
  | Gt => (f + 1)%Z
  | Eq => if Z.even f then f else (f + 1)%Z
  end.

(** ** constants.py *)

Definition MAX_SIMULATION_HOURS : Z := 48.
Definition MAX_TEAM_SIZE : Z := 4.

(** ** models.py *)

Module Genetic.
Record t := mk { id : Z; name : string }.
End Genetic.

Module Pet.
Record t := mk { genetic : Genetic.t; power : option Q }.
End Pet.

Module Territory.
Record t := mk { name : string; forage : Z; fight : Z }.
End Territory.

(** The exception a constructor raises, with its message. *)
Inductive ValueError := Raise (msg : string).

Module Team.
Record t := mk {
  name : string;
  pets : list Pet.t;
  territory : option string;
  manual_speed : option Q
}.

Definition size (self : t) : Z := Z.of_nat (List.length (pets self)).

(** [any(pet.power is None for pet in self.pets)] *)
Definition any_power_missing (self : t) : bool :=
  existsb (fun pet => match Pet.power pet with None => true | Some _ => false end)
          (pets self).

Definition post_init (self : t) : ValueError + unit :=
  if (MAX_TEAM_SIZE <? size self)%Z then
    inl (Raise ("A team cannot contain more than " ++ str_int MAX_TEAM_SIZE
                ++ " pets (got " ++ str_int (size self) ++ ")."))
  else if match manual_speed self with None => true | Some _ => false end
          && any_power_missing self then
    inl (Raise "All pets must have power if manual speed is not set.")
  else inr tt.

(** [Team(name, pets, territory, manual_speed)]: the dataclass stores the
    fields and then runs [__post_init__]. *)
Definition new (name : string) (pets : list Pet.t) (territory : option string)
           (manual_speed : option Q) : ValueError + t :=
  let self := mk name pets territory manual_speed in
  match post_init self with
  | inl e => inl e
  | inr _ => inr self
  end.

(** [sum(...)] starts from the int 0 and adds from the left. *)
Definition speed (self : t) : Q :=
  match manual_speed self with
  | Some s => s
  | None =>
      fold_left Qplus
        (map (fun pet => match Pet.power pet with Some p => p | None => 0 end)
             (pets self))
        0
  end.
End Team.

(** A team that exists is one its constructor returned. *)
Definition valid_team (tm : Team.t) : Prop := Team.post_init tm = inr tt.

(** ** simulation.py *)

Definition ALCHEMIC : string := "Alchemic".
Definition MONOLITHIC : string := "Monolithic".

Definition count_genetic (team : Team.t) (name : string) : Z :=
  fold_left Z.add
    (map (fun _ => 1%Z)
         (filter (fun pet => String.eqb (Genetic.name (Pet.genetic pet)) name)
                 (Team.pets team)))
    0%Z.

(** [monolithic_count / 5] is true division.  Python raises
    [ZeroDivisionError] at [monolithic_count = -5], where [Q] division
    returns 0; a count of pets is never negative. *)
Definition calculate_forage_requirement (base : Q) (fills : Z) (monolithic_count : Z) : Q :=
  let bonus := 1 + (2 # 100) / (inject_Z monolithic_count / 5 + 1) in
  (base + inject_Z fills) * (bonus ^ fills).

(** The per-team dict built by [init_state]. *)
Record TeamState := mkState {
  spice : Q;
  fills : Z;
  progress : Q;
  speed : Q;
  alchemic : Z;
  monolithic : Z
}.

Definition init_state (team : Team.t) : TeamState :=
  {| spice := 0;
     fills := 0;
     progress := 0;
     speed := Team.speed team;
     alchemic := count_genetic team ALCHEMIC;
     monolithic := count_genetic team MONOLITHIC |}.

(** A duration: a finite float or [float("inf")]. *)
Inductive time := Fin (q : Q) | PInf.

(** [min(x, y)]: the first argument unless the second is smaller. *)
Definition time_min (x y : time) : time :=
  match x, y with
  | Fin p, Fin q => if Qlt_bool q p then y else x
  | Fin _, PInf => x
  | PInf, Fin _ => y
  | PInf, PInf => x
  end.

(** What one [yield] hands out. *)
Record Sample := mkSample {
  s_timeline : list Q;
  s_a_yield : list Q;
  s_b_yield : list Q;
  s_breakeven : option Q
}.

(** The generator frame: the three parameters the loop reads and the local
    variables. *)
Record Locals := mkLocals {
  territory : Territory.t;
  max_hours : Z;
  stop_at_breakeven : bool;
  a : TeamState;
  b : TeamState;
  timeline : list Q;
  a_yield : list Q;
  b_yield : list Q;
  breakeven : option Q;
  t : Q
}.

(** Where a suspended frame resumes: at the head of the [while] loop
    (before the first [next()], and after the [yield] that ends the loop
    body), or after the [yield] in the [stop_at_breakeven] branch, whose
    next statement is [return]. *)
Inductive ProgramPoint := LoopHead | BreakevenYield.

Inductive Generator :=
| Suspended (pc : ProgramPoint) (l : Locals)
| Exhausted.

(** The requirement of the cycle a team is in, as both [next_fill_time] and
    the loop body compute it. *)
Definition requirement (territory : Territory.t) (state : TeamState) : Q :=
  calculate_forage_requirement (inject_Z (Territory.forage territory))
                               (fills state) (monolithic state).

Definition next_fill_time (territory : Territory.t) (state : TeamState) : time :=
  if Qle_bool (speed state) 0 then PInf
  else Fin ((requirement territory state - progress state) / speed state).

(** The body of [for state in (a, b)] for one team. *)
Definition advance (territory : Territory.t) (dt : Q) (state : TeamState) : TeamState :=
  let p := progress state + speed state * dt in
  if Qle_bool (requirement territory state) p then
    {| spice := spice state + (1 + (1 # 2) * inject_Z (alchemic state));
       fills := fills state + 1;
       progress := 0;
       speed := speed state;
       alchemic := alchemic state;
       monolithic := monolithic state |}
  else
    {| spice := spice state;
       fills := fills state;
       progress := p;
       speed := speed state;
       alchemic := alchemic state;
       monolithic := monolithic state |}.

(** One pass through the loop from its head to the next [yield], [break]
    or loop exit.  [t += inf] makes [t] infinite, which exceeds every
    int [max_hours]: the [break] at the overshoot test. *)
Definition loop_iteration (l : Locals) : option Sample * Generator :=
  if negb (Qle_bool (t l) (inject_Z (max_hours l))) then (None, Exhausted)
  else
    match time_min (next_fill_time (territory l) (a l))
                   (next_fill_time (territory l) (b l)) with
    | PInf => (None, Exhausted)
    | Fin dt =>
        let t' := t l + dt in
        if Qlt_bool (inject_Z (max_hours l)) t' then (None, Exhausted)
        else
          let a' := advance (territory l) dt (a l) in
          let b' := advance (territory l) dt (b l) in
          let timeline' := timeline l ++ [t'] in
          let a_yield' := a_yield l ++ [spice a'] in
          let b_yield' := b_yield l ++ [spice b'] in
          let crossing :=
            match breakeven l with
            | None => Qlt_bool (spice a') (spice b')
            | Some _ => false
            end in
          let breakeven' := if crossing then Some t' else breakeven l in
          let l' := mkLocals (territory l) (max_hours l) (stop_at_breakeven l)
                             a' b' timeline' a_yield' b_yield' breakeven' t' in
          let out := mkSample timeline' a_yield' b_yield' breakeven' in
          if crossing && stop_at_breakeven l
          then (Some out, Suspended BreakevenYield l')
          else (Some out, Suspended LoopHead l')
    end.

(** One call of [next()] on the generator. *)
Definition gen_next (g : Generator) : option Sample * Generator :=
  match g with
  | Exhausted => (None, Exhausted)
  | Suspended BreakevenYield _ => (None, Exhausted)
  | Suspended LoopHead l => loop_iteration l
  end.

(** Calling the generator function: the frame is created with the
    statements before the loop (pure) already evaluated. *)
Definition simulate_progressive (territory : Territory.t) (team_a team_b : Team.t)
           (label_a label_b : string) (max_hours : Z) (stop_at_breakeven : bool)
  : Generator :=
  Suspended LoopHead
    {| territory := territory;
       max_hours := max_hours;
       stop_at_breakeven := stop_at_breakeven;
       a := init_state team_a;
       b := init_state team_b;
       timeline := [0];
       a_yield := [0];
       b_yield := [0];
       breakeven := None;
       t := 0 |}.

(** The tuples the first [n] calls of [next()] hand out, in order, and the
    generator those calls leave behind. *)
Fixpoint take (n : nat) (g : Generator) : list Sample :=
  match n with
  | O => []
  | S k =>
      match gen_next g with
      | (Some s, g') => s :: take k g'
      | (None, _) => []
      end
  end.

Fixpoint after (n : nat) (g : Generator) : Generator :=
  match n with
  | O => g
  | S k => after k (snd (gen_next g))
  end.

(** ** utils.py *)

Local Open Scope string_scope.

Definition format_time (hours : Q) : string :=
  let total_seconds := py_round (hours * 3600) in
  let h := (total_seconds / 3600)%Z in
  let remainder := (total_seconds mod 3600)%Z in
  let m := (remainder / 60)%Z in
  let s := (remainder mod 60)%Z in
  if negb (h =? 0)%Z then
    if negb (m =? 0)%Z then str_int h ++ "h " ++ str_int m ++ "m"
    else str_int h ++ "h"
  else if negb (m =? 0)%Z then
    if negb (s =? 0)%Z then str_int m ++ "m " ++ str_int s ++ "s"
    else str_int m ++ "m"
  else if negb (s =? 0)%Z then str_int s ++ "s"
  else "0s".

(** A number below 100 on two digits. *)
Definition two_digits (n : Z) : string :=
  if (n <? 10)%Z then "0" ++ str_int n else str_int n.

(** [f"{x:.2f}"]: hundredths rounded to nearest, ties to even. *)
Definition fmt_2f (x : Q) : string :=
  let c := py_round (Qabs x * 100) in
  let body := str_int (c / 100) ++ "." ++ two_digits (c mod 100) in
  if Qlt_bool x 0 then "-" ++ body else body.

(** For [x > 0], the [e] with [10^e <= x < 10^(e+1)]. *)
Definition decimal_exponent (x : Q) : Z :=
  if Qle_bool 1 x then (Z.of_nat (String.length (str_int (Qfloor x))) - 1)%Z
  else (- Z.of_nat (String.length (str_int (Qceiling (/ x) - 1))))%Z.

(** [f"{x:.2E}"]: three significant digits and a signed exponent of at
    least two digits. *)
Definition fmt_2E (x : Q) : string :=
  let ax := Qabs x in
  let sign := if Qlt_bool x 0 then "-" else "" in
  if Qeq_bool ax 0 then sign ++ "0.00E+00"
  else
    let e := decimal_exponent ax in
    let c := py_round (ax / (10 ^ (e - 2))) in
    let c' := if (c =? 1000)%Z then 100%Z else c in
    let e' := if (c =? 1000)%Z then (e + 1)%Z else e in
    sign ++ str_int (c' / 100) ++ "." ++ two_digits (c' mod 100)
         ++ "E" ++ (if (e' <? 0)%Z then "-" else "+") ++ two_digits (Z.abs e').

Definition thresholds : list (Q * option string) :=
  [ (inject_Z (10 ^ 24), None);
    (inject_Z (10 ^ 21), Some "QQQ");
    (inject_Z (10 ^ 18), Some "QQ");
    (inject_Z (10 ^ 15), Some "Q");
    (inject_Z (10 ^ 12), Some "T");
    (inject_Z (10 ^ 9), Some "B");
    (inject_Z (10 ^ 6), Some "M");
    (inject_Z (10 ^ 3), Some "K") ].

(** The [for] loop of [format_number] over the remaining thresholds, with
    the statement after the loop at the end of the list. *)
Fixpoint format_number_from (number : Q) (rest : list (Q * option string)) : string :=
  match rest with
  | [] => str_int (int_of_float number)
  | (threshold, suffix) :: rest' =>
      if Qle_bool threshold number then
        match suffix with
        | Some sfx => fmt_2f (number / threshold) ++ sfx
        | None => fmt_2E number
        end
      else format_number_from number rest'
  end.

Definition format_number (number : Q) : string :=
  format_number_from number thresholds.

Local Close Scope string_scope.

(** ** The two default teams, as [main] builds them *)

Definition META_TEAM : string := "Meta Team".
Definition ALCHEMIC_TEAM : string := "Alchemic Team".

Definition pet_of (id : Z) (gene : string) : Pet.t :=
  Pet.mk (Genetic.mk id gene) None.

Definition meta_team (non_alchemic_speed : Q) : Team.t :=
  Team.mk META_TEAM
          [pet_of 1 "Borger"; pet_of 2 "Miasma"; pet_of 3 "Forager"; pet_of 4 "Converter"]
          None (Some non_alchemic_speed).

Definition alchemic_team (alchemic_speed : Q) : Team.t :=
  Team.mk ALCHEMIC_TEAM
          [pet_of 5 "Alchemic"; pet_of 5 "Alchemic"; pet_of 5 "Alchemic"; pet_of 4 "Converter"]
          None (Some alchemic_speed).

Definition sample_territory : Territory.t := Territory.mk "Grasslands" 100 10.
Definition bare_territory : Territory.t := Territory.mk "Barren" 0 0.

(** ** Vocabulary of the statements *)

(** [s] is one of the tuples the generator [g] yields. *)
Definition emitted (g : Generator) (s : Sample) : Prop :=
  exists n, In s (take n g).

(** A tuple with every number in lowest terms, for display. *)
Definition reduced (s : Sample) : Sample :=
  mkSample (map Qred (s_timeline s)) (map Qred (s_a_yield s))
           (map Qred (s_b_yield s)) (option_map Qred (s_breakeven s)).

(** [R] holds from every earlier to every later element of the list. *)
Definition pairwise (R : Q -> Q -> Prop) (l : list Q) : Prop :=
  forall (i j : nat) (x y : Q),
    (i < j)%nat -> nth_error l i = Some x -> nth_error l j = Some y -> R x y.

Definition strictly_increasing : list Q -> Prop := pairwise Qlt.
Definition non_decreasing : list Q -> Prop := pairwise Qle.

(** The time of the step a tuple reports, and whether team B is ahead of
    team A at that step. *)
Definition sample_time (s : Sample) : Q := last (s_timeline s) 0.

Definition crossed (s : Sample) : bool :=
  Qlt_bool (last (s_a_yield s) 0) (last (s_b_yield s) 0).

(** The time of the first tuple of a run at which B is ahead. *)
Definition first_crossing (run : list Sample) : option Q :=
  option_map sample_time (find crossed run).

(** The next step would take the time past [max_hours]. *)
Definition overshoots (l : Locals) : Prop :=
  match time_min (next_fill_time (territory l) (a l))
                 (next_fill_time (territory l) (b l)) with
  | PInf => True
  | Fin dt => inject_Z (max_hours l) < t l + dt
  end.

(** No time is left: the loop condition fails, or the next step overshoots. *)
Definition budget_exhausted (l : Locals) : Prop :=
  ~ t l <= inject_Z (max_hours l) \/ overshoots l.

(** The frame belongs to a call with these parameters. *)
Definition frame_of (tr : Territory.t) (mh : Z) (stop : bool) (g : Generator) : Prop :=
  match g with
  | Suspended _ l => territory l = tr /\ max_hours l = mh /\ stop_at_breakeven l = stop
  | Exhausted => True
  end.

(** Field by field equality of two team states, floats up to [==]. *)
Definition state_equiv (x y : TeamState) : Prop :=
  spice x == spice y /\ fills x = fills y /\ progress x == progress y
  /\ speed x == speed y /\ alchemic x = alchemic y /\ monolithic x = monolithic y.

(** Invariant of a run of two like teams: the states agree, the yield
    lists agree, no breakeven was seen. *)
Definition level (g : Generator) : Prop :=
  match g with
  | Suspended _ l =>
      state_equiv (a l) (b l)
      /\ Forall2 Qeq (a_yield l) (b_yield l)
      /\ breakeven l = None
  | Exhausted => True
  end.

(** Invariant of one team's state at the head of the loop: the counters
    are not negative, the progress has not reached the requirement of the
    current cycle (it may equal it only in cycle 0 of a territory with
    forage 0), and the progress of a team that forages is not negative. *)
Definition state_ok (tr : Territory.t) (st : TeamState) : Prop :=
  (0 <= fills st)%Z /\ (0 <= monolithic st)%Z /\ (0 <= alchemic st)%Z
  /\ progress st <= requirement tr st
  /\ ((0 < Territory.forage tr)%Z -> progress st < requirement tr st)
  /\ (0 < speed st -> 0 <= progress st).

(** Invariant of a run in a territory with forage of at least 0: the
    histories are ordered and bounded by the current time and yields. *)
Definition ordered (g : Generator) : Prop :=
  match g with
  | Suspended _ l =>
      (0 <= Territory.forage (territory l))%Z
      /\ state_ok (territory l) (a l) /\ state_ok (territory l) (b l)
      /\ Forall (fun x => x <= t l) (timeline l)
      /\ non_decreasing (timeline l)
      /\ ((0 < Territory.forage (territory l))%Z -> strictly_increasing (timeline l))
      /\ Forall (fun x => x <= spice (a l)) (a_yield l)
      /\ non_decreasing (a_yield l)
      /\ Forall (fun x => x <= spice (b l)) (b_yield l)
      /\ non_decreasing (b_yield l)
  | Exhausted => True
  end.

(** What a foraging team can still collect in the time left: the forage of
    the remaining hours, the progress at hand, and one unit while its first
    cycle (whose requirement may be 0) is open.  Every fill costs at least
    one unit of it. *)
Definition potential (mh : Z) (now : Q) (st : TeamState) : Q :=
  if Qle_bool (speed st) 0 then 0
  else (inject_Z mh - now) * speed st + progress st
       + (if (fills st =? 0)%Z then 1 else 0).

Definition remaining (l : Locals) : Q :=
  potential (max_hours l) (t l) (a l) + potential (max_hours l) (t l) (b l).

(** ** Python dicts

    A dict is kept as the list of its items in insertion order, one item
    per key.  Storing under a key that is present replaces the value and
    keeps the key where it is; a new key goes to the end. *)

Definition dict (K V : Type) : Type := list (K * V).

Section Dict.
Context {K V : Type}.
Variable eqb : K -> K -> bool.

(** [d.get(k)], and [d[k]] with [None] for [KeyError]. *)
Fixpoint dict_get (d : dict K V) (k : K) : option V :=
  match d with
  | [] => None
  | (k', v) :: rest => if eqb k k' then Some v else dict_get rest k
  end.

(** [d[k] = v] *)
Fixpoint dict_set (d : dict K V) (k : K) (v : V) : dict K V :=
  match d with
  | [] => [(k, v)]
  | (k', v') :: rest =>
      if eqb k k' then (k', v) :: rest else (k', v') :: dict_set rest k v
  end.

(** [list(d)] *)
Definition dict_keys (d : dict K V) : list K := map fst d.

(** [{key(x): x for x in items}] *)
Definition dict_by {A : Type} (key : A -> K) (value : A -> V) (items : list A)
  : dict K V :=
  fold_left (fun d x => dict_set d (key x) (value x)) items [].
End Dict.

(** ** The rest of models.py *)

(** [Team.genetics_counts] *)
Definition genetics_counts (self : Team.t) : dict string Z :=
  fold_left
    (fun counts pet =>
       let name := Genetic.name (Pet.genetic pet) in
       dict_set String.eqb counts name
                (match dict_get String.eqb counts name with
                 | Some c => c
                 | None => 0
                 end + 1)%Z)
    (Team.pets self) [].

(** ** The rest of utils.py *)

(** [string.replace(" ", "_")], character by character. *)
Definition space_to_underscore (c : ascii) : ascii :=
  if (c =? " ")%char then "_"%char else c.

(** The characters the pattern [[^a-zA-Z0-9_]] leaves in place. *)
Definition is_slug_char (c : ascii) : bool :=
  let n := N_of_ascii c in
  ((97 <=? n) && (n <=? 122))%N || ((65 <=? n) && (n <=? 90))%N
  || ((48 <=? n) && (n <=? 57))%N || (n =? 95)%N.

(** A string is a sequence of bytes here; a character outside ASCII is a
    run of bytes above 127, all of which the pattern deletes, as it deletes
    the character. *)
Definition slugify (s : string) : string :=
  string_of_list_ascii
    (filter is_slug_char (map space_to_underscore (list_ascii_of_string s))).

(** ** Paths

    A POSIX path as [pathlib] keeps it: whether it starts at the root, and
    the list of its parts. *)

Record PurePath := mkPath { anchored : bool; parts : list string }.

(** The parts of a path written as a string: the pieces between slashes,
    empty pieces and ["."] dropped.  [piece] holds the characters of the
    piece being read, last first. *)
Definition close_piece (piece : list ascii) (rest : list string) : list string :=
  match piece with
  | [] => rest
  | _ => if String.eqb (string_of_list_ascii (rev piece)) "." then rest
         else string_of_list_ascii (rev piece) :: rest
  end.

Fixpoint split_parts (cs : list ascii) (piece : list ascii) : list string :=
  match cs with
  | [] => close_piece piece []
  | c :: cs' =>
      if (c =? "/")%char then close_piece piece (split_parts cs' [])
      else split_parts cs' (c :: piece)
  end.

Definition is_absolute (s : string) : bool :=
  match s with
  | String c _ => (c =? "/")%char
  | EmptyString => false
  end.

Definition Path (s : string) : PurePath :=
  mkPath (is_absolute s) (split_parts (list_ascii_of_string s) []).

(** [path / name]: an absolute right operand replaces the path, a relative
    one adds its parts. *)
Definition path_div (path : PurePath) (name : string) : PurePath :=
  if is_absolute name then Path name
  else mkPath (anchored path) (parts path ++ parts (Path name)).

Definition GENETIC_ASSETS_PATH : string := "assets/genetics".
Definition SPICE_ASSETS_PATH : string := "assets/spices".
Definition TERRITORY_ASSETS_PATH : string := "assets/territories".

(** [Genetic.icon_path] *)
Definition icon_path (self : Genetic.t) : PurePath :=
  path_div (Path GENETIC_ASSETS_PATH) (slugify (Genetic.name self) ++ ".png").

(** [Territory.spice_name], [spice_icon_path] and [background_path] *)
Definition spice_name (self : Territory.t) : string :=
  (Territory.name self ++ " Spice")%string.

Definition spice_icon_path (self : Territory.t) : PurePath :=
  path_div (Path SPICE_ASSETS_PATH) (slugify (spice_name self) ++ ".png").

Definition background_path (self : Territory.t) : PurePath :=
  path_div (Path TERRITORY_ASSETS_PATH) (slugify (Territory.name self) ++ ".png").

(** ** loader.py: the lookup tables *)

Definition build_genetics_by_id (genetics : list Genetic.t) : dict Z Genetic.t :=
  dict_by Z.eqb Genetic.id (fun g => g) genetics.

Definition build_genetics_by_name (genetics : list Genetic.t) : dict string Genetic.t :=
  dict_by String.eqb Genetic.name (fun g => g) genetics.

Definition build_territories_by_name (territories : list Territory.t)
  : dict string Territory.t :=
  dict_by String.eqb Territory.name (fun t => t) territories.

(** ** streamlit_app.py: what the page is given

    The Streamlit calls are effects on the page.  The model keeps the data
    they are handed: the rows added to the line chart and the banner with
    the result.  The icon of a banner is fixed by its kind. *)

(** The default teams of constants.py. *)
Definition DEFAULT_TEAMS : dict string (list string) :=
  [ (META_TEAM, ["Borger"; "Miasma"; "Forager"; "Converter"]%string);
    (ALCHEMIC_TEAM, ["Alchemic"; "Alchemic"; "Alchemic"; "Converter"]%string) ].

Inductive Exception :=
| KeyError (key : string)
| IndexError
| InvalidTeam (e : ValueError).

(** [[Pet(genetic=genetics_by_name[gene]) for gene in genes]]: the first
    gene the table lacks raises [KeyError]. *)
Fixpoint pets_of_genes (genetics_by_name : dict string Genetic.t) (genes : list string)
  : Exception + list Pet.t :=
  match genes with
  | [] => inr []
  | gene :: rest =>
      match dict_get String.eqb genetics_by_name gene with
      | None => inl (KeyError gene)
      | Some g =>
          match pets_of_genes genetics_by_name rest with
          | inl e => inl e
          | inr pets => inr (Pet.mk g None :: pets)
          end
      end
  end.

(** One of the two [Team(...)] calls of [main]: the team named [label] with
    the speed typed into its number input, an int. *)
Definition default_team (label : string) (speed : Z)
           (genetics_by_name : dict string Genetic.t) : Exception + Team.t :=
  match dict_get String.eqb DEFAULT_TEAMS label with
  | None => inl (KeyError label)
  | Some genes =>
      match pets_of_genes genetics_by_name genes with
      | inl e => inl e
      | inr pets =>
          match Team.new label pets None (Some (inject_Z speed)) with
          | inl e => inl (InvalidTeam e)
          | inr team => inr team
          end
      end
  end.

(** A row of the chart: the index, and the columns by label. *)
Record Row := mkRow { row_index : option Q; row_columns : dict string Q }.

(** [l[-1]] *)
Definition last_item (l : list Q) : Exception + Q :=
  match rev l with
  | [] => inl IndexError
  | x :: _ => inr x
  end.

(** [dict.pop(k)]: the dict without the key. *)
Definition dict_remove (d : dict string Q) (k : string) : dict string Q :=
  filter (fun kv => negb (String.eqb k (fst kv))) d.

(** [append_chart_data]: the frame is built from a dict literal, so equal
    labels share a column; [set_index] moves the time column to the index. *)
Definition append_chart_data (chart : list Row)
           (timeline team_a_yield team_b_yield : list Q) (label_a label_b : string)
  : Exception + list Row :=
  match timeline with
  | [] => inr chart
  | _ =>
      match last_item timeline, last_item team_a_yield, last_item team_b_yield with
      | inr time, inr ya, inr yb =>
          let frame :=
            dict_set String.eqb
              (dict_set String.eqb
                 (dict_set String.eqb [] "Time (Hours)"%string time)
                 label_a ya)
              label_b yb in
          inr (chart ++ [mkRow (dict_get String.eqb frame "Time (Hours)"%string)
                               (dict_remove frame "Time (Hours)"%string)])
      | inl e, _, _ => inl e
      | _, inl e, _ => inl e
      | _, _, inl e => inl e
      end
  end.

Inductive Banner := Success (body : string) | Warning (body : string).

Definition display_breakeven (breakeven : option Q) (label_a label_b : string)
           (max_hours : Z) : Banner :=
  match breakeven with
  | Some time =>
      Success ("**" ++ label_b ++ "** surpasses **" ++ label_a ++ "** after **"
                    ++ format_time time ++ "**.")
  | None =>
      Warning ("No breakeven found within **" ++ format_time (inject_Z max_hours)
                                              ++ "**.")
  end.

(** How a loop over a generator ends: normally, by an exception, or not
    within the turns it was given. *)
Inductive Outcome (A : Type) :=
| Completed (result : A)
| Raised (e : Exception)
| Unfinished.
Arguments Completed {A} result.
Arguments Raised {A} e.
Arguments Unfinished {A}.

(** The [for] loop of [render_territory_comparison]: each tuple rebinds
    [breakeven] and, when there is a chart, adds a row to it.  A chart
    element is taken to be truthy, as an object without [__bool__] and
    [__len__] is, so [if chart] tests for [None]. *)
Fixpoint chart_samples (turns : nat) (g : Generator) (chart : option (list Row))
         (breakeven : option Q) (label_a label_b : string)
  : Outcome (option (list Row) * option Q) :=
  match turns with
  | O => Unfinished
  | S turns' =>
      match gen_next g with
      | (None, _) => Completed (chart, breakeven)
      | (Some s, g') =>
          match chart with
          | None => chart_samples turns' g' None (s_breakeven s) label_a label_b
          | Some rows =>
              match append_chart_data rows (s_timeline s) (s_a_yield s) (s_b_yield s)
                                      label_a label_b with
              | inl e => Raised e
              | inr rows' =>
                  chart_samples turns' g' (Some rows') (s_breakeven s) label_a label_b
              end
          end
      end
  end.

(** [render_territory_comparison], from [breakeven = None] on: the chart
    rows (when [show_extras]) and the banner. *)
Definition render_territory_comparison (turns : nat)
           (territory : Territory.t) (team_a team_b : Team.t)
           (label_a label_b : string) (max_hours : Z) (show_extras : bool)
  : Outcome (option (list Row) * Banner) :=
  let chart := if show_extras then Some [] else None in
  match chart_samples turns
          (simulate_progressive territory team_a team_b label_a label_b max_hours true)
          chart None label_a label_b with
  | Completed (chart', breakeven) =>
      Completed (chart', display_breakeven breakeven label_a label_b max_hours)
  | Raised e => Raised e
  | Unfinished => Unfinished
  end.

(** ** More vocabulary *)

(** At index [k] team B's yield exceeds team A's. *)
Definition ahead_at (ay yb : list Q) (k : nat) : Prop :=
  exists x y, nth_error ay k = Some x /\ nth_error yb k = Some y /\ x < y.

(** The breakeven marks the first index at which B is ahead: it is the
    time at that index; without a breakeven B is ahead nowhere. *)
Definition breakeven_marks (tl ay yb : list Q) (bk : option Q) : Prop :=
  match bk with
  | Some v =>
      exists k, nth_error tl k = Some v /\ ahead_at ay yb k
                /\ forall j, (j < k)%nat -> ~ ahead_at ay yb j
  | None => forall j, ~ ahead_at ay yb j
  end.

(** From each entry to the next the list stays or grows by [amount]. *)
Definition steps_by (amount : Q) (l : list Q) : Prop :=
  forall i x y,
    nth_error l i = Some x -> nth_error l (S i) = Some y ->
    y == x \/ y == x + amount.

(** What a fill adds to a team's spice. *)
Definition fill_yield (team : Team.t) : Q :=
  1 + (1 # 2) * inject_Z (count_genetic team ALCHEMIC).

(** The time at which a team foraging alone completes its [k]-th cycle:
    the requirements of the cycles before, over its speed. *)
Fixpoint cycle_time (forage monolithic_count : Z) (speed : Q) (k : nat) : Q :=
  match k with
  | O => 0
  | S j =>
      cycle_time forage monolithic_count speed j
      + calculate_forage_requirement (inject_Z forage) (Z.of_nat j) monolithic_count
        / speed
  end.

Definition solo_cycle_time (territory : Territory.t) (team : Team.t) (k : nat) : Q :=
  cycle_time (Territory.forage territory) (count_genetic team MONOLITHIC)
             (Team.speed team) k.

(** Invariant of a foraging team's state: it is where it would be alone. *)
Definition on_schedule (tr : Territory.t) (team : Team.t) (now : Q) (st : TeamState)
  : Prop :=
  speed st = Team.speed team
  /\ monolithic st = count_genetic team MONOLITHIC
  /\ alchemic st = count_genetic team ALCHEMIC
  /\ (0 <= fills st)%Z
  /\ spice st == inject_Z (fills st) * fill_yield team
  /\ (0 < speed st ->
      progress st == speed st * (now - solo_cycle_time tr team (Z.to_nat (fills st)))
      /\ solo_cycle_time tr team (Z.to_nat (fills st)) <= now).

(** The row the chart gets for a tuple when the labels differ from each
    other and from the name of the time column. *)
Definition row_of (label_a label_b : string) (s : Sample) : Row :=
  mkRow (Some (sample_time s))
        [(label_a, last (s_a_yield s) 0); (label_b, last (s_b_yield s) 0)].

(** Invariant: the three lists have one length and the breakeven marks
    the first index at which B is ahead. *)
Definition marked (g : Generator) : Prop :=
  match g with
  | Suspended _ l =>
      List.length (timeline l) = List.length (a_yield l)
      /\ List.length (a_yield l) = List.length (b_yield l)
      /\ breakeven_marks (timeline l) (a_yield l) (b_yield l) (breakeven l)
  | Exhausted => True
  end.

(** Invariant: each yield list ends with the team's spice and moves by the
    team's fill yield or not at all. *)
Definition stepping (amount_a amount_b : Q) (g : Generator) : Prop :=
  match g with
  | Suspended _ l =>
      (exists init, a_yield l = init ++ [spice (a l)])
      /\ (exists init, b_yield l = init ++ [spice (b l)])
      /\ 1 + (1 # 2) * inject_Z (alchemic (a l)) = amount_a
      /\ 1 + (1 # 2) * inject_Z (alchemic (b l)) = amount_b
      /\ steps_by amount_a (a_yield l)
      /\ steps_by amount_b (b_yield l)
  | Exhausted => True
  end.

(** Invariant of a run whose second team does not forage, in a territory
    with forage of at least 1: that team has no spice and no progress. *)
Definition idle_second (g : Generator) : Prop :=
  ordered g
  /\ match g with
     | Suspended _ l =>
         (0 < Territory.forage (territory l))%Z
         /\ speed (b l) <= 0 /\ spice (b l) = 0 /\ progress (b l) <= 0
         /\ 0 <= spice (a l) /\ breakeven l = None
         /\ Forall (fun y => y = 0) (b_yield l)
     | Exhausted => True
     end.

(** Invariant: both teams are where they would be alone. *)
Definition scheduled (tr : Territory.t) (ta tb : Team.t) (g : Generator) : Prop :=
  ordered g
  /\ match g with
     | Suspended _ l =>
         territory l = tr
         /\ on_schedule tr ta (t l) (a l) /\ on_schedule tr tb (t l) (b l)
     | Exhausted => True
     end.

(** A team's last yield in a tuple is what it would have alone at the
    time of the tuple: [k] fills, the [k]-th cycle just completed or
    behind, the next one not yet. *)
Definition solo_yield (tr : Territory.t) (team : Team.t) (yields : list Q) (time : Q)
  : Prop :=
  exists k : nat,
    last yields 0 == inject_Z (Z.of_nat k) * fill_yield team
    /\ solo_cycle_time tr team k <= time
    /\ time < solo_cycle_time tr team (S k).

(** * Properties *)

(** ** Sanity checks of the model against the documented examples *)

Example format_number_millions : format_number 2500000 = "2.50M"%string.
Proof. reflexivity. Qed.

Example format_number_small : format_number 999 = "999"%string.
Proof. reflexivity. Qed.

Example format_number_scientific :
  format_number (inject_Z (10 ^ 25)) = "1.00E+25"%string.
Proof. vm_compute. reflexivity. Qed.

Example format_number_truncates : format_number (19999 # 20) = "999"%string.
Proof. reflexivity. Qed.

Example format_time_examples :
  format_time (3 # 2) = "1h 30m"%string /\
  format_time (167 # 10000) = "1m"%string /\
  format_time 0 = "0s"%string /\
  format_time (1 # 1000) = "4s"%string /\
  format_time 2 = "2h"%string /\
  format_time (61 # 3600) = "1m 1s"%string.
Proof. repeat split; vm_compute; reflexivity. Qed.

(** The documented run: forage 100, team A at speed 10 without alchemic
    pets, team B at speed 8 with three of them, 48 hours.  A fills at 10
    hours, B at 12.5 hours with 2.5 spice against 1: breakeven, and stop. *)
Example documented_run :
  map reduced
      (take 10 (simulate_progressive sample_territory (meta_team 10) (alchemic_team 8)
                                     "Non-Alchemic" "Alchemic" 48 true))
  = [ mkSample [0; 10] [0; 1] [0; 0] None;
      mkSample [0; 10; 25 # 2] [0; 1; 1] [0; 0; 5 # 2] (Some (25 # 2)) ].
Proof. vm_compute. reflexivity. Qed.

(** ** Team construction *)

Lemma any_power_missing_iff (tm : Team.t) :
  Team.any_power_missing tm = true <->
  exists pet, In pet (Team.pets tm) /\ Pet.power pet = None.
Proof.
  unfold Team.any_power_missing. rewrite existsb_exists.
  split; intros [pet [Hin Hp]]; exists pet; split; auto;
    destruct (Pet.power pet); congruence.
Qed.

Lemma post_init_raises_iff (tm : Team.t) :
  (exists e, Team.post_init tm = inl e) <->
  (MAX_TEAM_SIZE < Team.size tm)%Z \/
  (Team.manual_speed tm = None /\
   exists pet, In pet (Team.pets tm) /\ Pet.power pet = None).
Proof.
  unfold Team.post_init. rewrite <- any_power_missing_iff.
  destruct (Z.ltb_spec MAX_TEAM_SIZE (Team.size tm)) as [Hlt | Hge].
  - split; [intros _; left; exact Hlt | intros _; eexists; reflexivity].
  - destruct (Team.manual_speed tm) as [s |]; simpl.
    + split; [intros [e He]; discriminate | intros [H | [H _]]; [lia | discriminate]].
    + destruct (Team.any_power_missing tm).
      * split; [intros _; right; auto | intros _; eexists; reflexivity].
      * split; [intros [e He]; discriminate | intros [H | [_ H]]; [lia | discriminate]].
Qed.

(** C8. Constructing a team raises [ValueError] exactly when it has more
    than [MAX_TEAM_SIZE] = 4 pets, or no manual speed is given and some pet
    has no power.  So five pets are refused, a pet without power is refused
    when no manual speed is given, and every other team is returned as
    built.  The simulator takes teams that already exist and its result type
    has no error: nothing of the kind is raised while it runs. *)
Theorem team_construction_raises_iff
        (name : string) (pets : list Pet.t) (territory : option string)
        (manual_speed : option Q) :
  let invalid :=
    (MAX_TEAM_SIZE < Z.of_nat (List.length pets))%Z \/
    (manual_speed = None /\ exists pet, In pet pets /\ Pet.power pet = None) in
  ((exists e, Team.new name pets territory manual_speed = inl e) <-> invalid)
  /\ (List.length pets = 5%nat ->
      exists e, Team.new name pets territory manual_speed = inl e)
  /\ (forall pet, In pet pets -> Pet.power pet = None -> manual_speed = None ->
      exists e, Team.new name pets territory manual_speed = inl e)
  /\ (~ invalid ->
      Team.new name pets territory manual_speed
      = inr (Team.mk name pets territory manual_speed)).
Proof.
  intros invalid.
  assert (Hiff : (exists e, Team.new name pets territory manual_speed = inl e)
                 <-> invalid).
  { unfold Team.new.
    pose proof (post_init_raises_iff (Team.mk name pets territory manual_speed)) as H.
    unfold Team.size in H; simpl in H.
    etransitivity; [| exact H].
    destruct (Team.post_init (Team.mk name pets territory manual_speed)) as [e | u].
    - split; intros _; eexists; reflexivity.
    - split; intros [e He]; discriminate. }
  split; [exact Hiff |].
  split; [intros H5; apply Hiff; left; rewrite H5; reflexivity |].
  split; [intros pet Hin Hp Hm; apply Hiff; right; split; [exact Hm | exists pet; auto] |].
  intros Hvalid. unfold Team.new.
  destruct (Team.post_init (Team.mk name pets territory manual_speed)) as [e | u] eqn:E.
  - exfalso. apply Hvalid. apply Hiff. unfold Team.new. rewrite E. eexists; reflexivity.
  - reflexivity.
Qed.

Lemma team_construction_raises_iff_witness :
  (exists e, Team.new "Meta Team"
                      [pet_of 1 "Borger"; pet_of 2 "Miasma"; pet_of 3 "Forager";
                       pet_of 4 "Converter"; pet_of 5 "Alchemic"]
                      None (Some 10) = inl e)
  /\ Team.new "Meta Team" [pet_of 1 "Borger"; pet_of 2 "Miasma"] None (Some 10)
     = inr (Team.mk "Meta Team" [pet_of 1 "Borger"; pet_of 2 "Miasma"] None (Some 10)).
Proof.
  split.
  - apply (proj1 (proj2 (team_construction_raises_iff
                           "Meta Team"
                           [pet_of 1 "Borger"; pet_of 2 "Miasma"; pet_of 3 "Forager";
                            pet_of 4 "Converter"; pet_of 5 "Alchemic"]
                           None (Some 10)))).
    reflexivity.
  - apply (proj2 (proj2 (proj2 (team_construction_raises_iff
                                  "Meta Team" [pet_of 1 "Borger"; pet_of 2 "Miasma"]
                                  None (Some 10))))).
    intros [H | [H _]]; [vm_compute in H; discriminate | discriminate].
Defined.

(** ** The requirement curve *)

Lemma Qpower_succ (x : Q) (n : Z) : (0 <= n)%Z -> x ^ (n + 1) == x ^ n * x.
Proof.
  intros Hn. rewrite Qpower_plus' by lia. rewrite Qpower_1_r. reflexivity.
Qed.

Lemma Qpower_lt_base_nat (x y : Q) (k : nat) :
  0 <= x -> x < y -> x ^ Z.of_nat (S k) < y ^ Z.of_nat (S k).
Proof.
  intros Hx Hxy. induction k as [| k IH].
  - change (Z.of_nat 1) with 1%Z. rewrite !Qpower_1_r. exact Hxy.
  - replace (Z.of_nat (S (S k))) with (Z.of_nat (S k) + 1)%Z by lia.
    rewrite !Qpower_succ by lia.
    assert (0 <= x ^ Z.of_nat (S k)) by (apply Qpower_0_le; exact Hx).
    nra.
Qed.

Lemma Qpower_lt_base (x y : Q) (n : Z) :
  0 <= x -> x < y -> (0 < n)%Z -> x ^ n < y ^ n.
Proof.
  intros Hx Hxy Hn.
  replace n with (Z.of_nat (S (Z.to_nat (n - 1)))) by lia.
  apply Qpower_lt_base_nat; assumption.
Qed.

(** Bernoulli from above: on [0, 1] the power [(1 + x)^k] stays under the
    chord through its end points. *)
Lemma Qpower_chord_nat (x : Q) (k : nat) :
  0 <= x -> x <= 1 ->
  (1 + x) ^ Z.of_nat k <= 1 + (2 ^ Z.of_nat k - 1) * x.
Proof.
  intros H0 H1. induction k as [| k IH].
  - simpl. lra.
  - replace (Z.of_nat (S k)) with (Z.of_nat k + 1)%Z by lia.
    rewrite !Qpower_succ by lia.
    assert (Hc : 1 <= 2 ^ Z.of_nat k) by (apply Qpower_1_le; [lra | lia]).
    set (c := 2 ^ Z.of_nat k) in *. set (P := (1 + x) ^ Z.of_nat k) in *.
    assert (Hstep : P * (1 + x) <= (1 + (c - 1) * x) * (1 + x))
      by (apply Qmult_le_compat_r; [exact IH | lra]).
    assert (Hcx : 0 <= (c - 1) * x) by (apply Qmult_le_0_compat; lra).
    assert (Hsq : x * ((c - 1) * x) <= 1 * ((c - 1) * x))
      by (apply Qmult_le_compat_r; [exact H1 | exact Hcx]).
    lra.
Qed.

(** The discount factor [0.02 / (m / 5 + 1)]. *)
Lemma discount_bounds (m : Z) :
  (0 <= m)%Z ->
  0 < (2 # 100) / (inject_Z m / 5 + 1) /\ (2 # 100) / (inject_Z m / 5 + 1) <= 1.
Proof.
  intros Hm.
  assert (Hq : 0 <= inject_Z m) by (change 0 with (inject_Z 0); rewrite <- Zle_Qle; exact Hm).
  assert (Hd : 1 <= inject_Z m / 5 + 1).
  { assert (0 <= inject_Z m / 5) by (apply Qle_shift_div_l; lra). lra. }
  split.
  - apply Qlt_shift_div_l; lra.
  - apply Qle_shift_div_r; lra.
Qed.

Lemma discount_decreasing (m1 m2 : Z) :
  (0 <= m1)%Z -> (m1 < m2)%Z ->
  (2 # 100) / (inject_Z m2 / 5 + 1) < (2 # 100) / (inject_Z m1 / 5 + 1).
Proof.
  intros H1 H12.
  assert (Hq1 : 0 <= inject_Z m1) by (change 0 with (inject_Z 0); rewrite <- Zle_Qle; exact H1).
  assert (Hq12 : inject_Z m1 < inject_Z m2) by (rewrite <- Zlt_Qlt; exact H12).
  set (d1 := inject_Z m1 / 5 + 1). set (d2 := inject_Z m2 / 5 + 1).
  assert (Hd1 : 1 <= d1).
  { unfold d1. assert (0 <= inject_Z m1 / 5) by (apply Qle_shift_div_l; lra). lra. }
  assert (Hd12 : d1 < d2).
  { unfold d1, d2.
    assert (inject_Z m1 / 5 < inject_Z m2 / 5)
      by (apply Qmult_lt_compat_r; [reflexivity | exact Hq12]).
    lra. }
  apply Qlt_shift_div_r; [lra |].
  assert (E : (2 # 100) / d1 * d2 == (2 # 100) * (d2 / d1)) by (field; lra).
  rewrite E.
  assert (1 < d2 / d1) by (apply Qlt_shift_div_l; lra).
  lra.
Qed.



(** ** Display formatting *)

(** [round] returns a nearest integer, the even one at a tie. *)
Lemma py_round_nearest (x : Q) :
  Qabs (x - inject_Z (py_round x)) <= 1 # 2
  /\ (Qabs (x - inject_Z (py_round x)) == 1 # 2 -> Z.even (py_round x) = true).
Proof.
  unfold py_round.
  pose proof (Qfloor_le x) as Hlo. pose proof (Qlt_floor x) as Hhi.
  rewrite inject_Z_plus in Hhi. change (inject_Z 1) with 1 in Hhi.
  set (f := Qfloor x) in *.
  destruct (Qcompare_spec (x - inject_Z f) (1 # 2)) as [He | Hl | Hg].
  - destruct (Z.even f) eqn:Ev.
    + split; [apply Qabs_Qle_condition; lra | intros _; exact Ev].
    + rewrite inject_Z_plus. change (inject_Z 1) with 1.
      split; [apply Qabs_Qle_condition; lra |].
      intros _. rewrite Z.even_add, Ev. reflexivity.
  - split; [apply Qabs_Qle_condition; lra |].
    intros Habs. rewrite Qabs_pos in Habs by lra. lra.
  - rewrite inject_Z_plus. change (inject_Z 1) with 1.
    split; [apply Qabs_Qle_condition; lra |].
    intros Habs. rewrite Qabs_neg in Habs by lra. lra.
Qed.

Lemma py_round_nonneg (x : Q) : 0 <= x -> (0 <= py_round x)%Z.
Proof.
  intros Hx. unfold py_round.
  assert (Hf : (0 <= Qfloor x)%Z).
  { change 0%Z with (Qfloor 0). apply Qfloor_resp_le. exact Hx. }
  destruct (Qcompare (x - inject_Z (Qfloor x)) (1 # 2));
    [destruct (Z.even (Qfloor x)) | |]; lia.
Qed.



(** ** Compact numbers *)

Lemma int_of_float_negative (x : Q) :
  x < 0 ->
  (int_of_float x <= 0)%Z
  /\ x <= inject_Z (int_of_float x)
  /\ inject_Z (int_of_float x) < x + 1.
Proof.
  destruct x as [n d]. unfold int_of_float, Qlt, Qle, Qplus, inject_Z. simpl.
  intros Hn.
  pose proof (Z.quot_rem' n (Z.pos d)) as E.
  pose proof (Z.rem_bound_pos_neg n (Z.pos d) ltac:(lia) ltac:(lia)) as B.
  set (q := Z.quot n (Z.pos d)) in *. set (r := Z.rem n (Z.pos d)) in *.
  repeat split; nia.
Qed.

(** C10. [format_number] compares the number itself, sign included, with
    each threshold.  A negative number is below all of them, so it is
    written as [str(int(number))]: cut toward zero, with neither suffix nor
    exponent, however large its magnitude. *)
Theorem format_number_negative (x : Q) :
  x < 0 ->
  Forall (fun th => Qle_bool (fst th) x = false) thresholds
  /\ format_number x = str_int (int_of_float x)
  /\ (int_of_float x <= 0)%Z
  /\ x <= inject_Z (int_of_float x) < x + 1.
Proof.
  intros Hx.
  assert (Hth : Forall (fun th => Qle_bool (fst th) x = false) thresholds).
  { unfold thresholds.
    repeat (apply Forall_cons;
            [ simpl fst; apply not_true_is_false; rewrite Qle_bool_iff;
              intros Hle;
              match type of Hle with
              | inject_Z ?z <= _ =>
                  assert (0 < inject_Z z) by reflexivity
              end; lra
            | ]).
    apply Forall_nil. }
  split; [exact Hth |].
  split.
  - unfold format_number. revert Hth. generalize thresholds.
    induction l as [| [threshold suffix] rest IH]; intros Hall.
    + reflexivity.
    + inversion Hall as [| th l' Hhd Htl]; subst. simpl in Hhd.
      simpl. rewrite Hhd. apply IH. exact Htl.
  - pose proof (int_of_float_negative x Hx) as (H1 & H2 & H3). auto.
Qed.

Lemma format_number_negative_witness :
  format_number (- inject_Z (10 ^ 24)) = "-1000000000000000000000000"%string
  /\ format_number (- (5000001 # 2)) = "-2500000"%string.
Proof.
  split.
  - rewrite (proj1 (proj2 (format_number_negative (- inject_Z (10 ^ 24))
                                                   ltac:(reflexivity)))).
    vm_compute. reflexivity.
  - rewrite (proj1 (proj2 (format_number_negative (- (5000001 # 2))
                                                   ltac:(reflexivity)))).
    vm_compute. reflexivity.
Defined.

(** ** The progressive simulator: how one [next()] proceeds *)

(** What is known when a pass through the loop yields. *)
Lemma loop_iteration_yields (l : Locals) (s : Sample) (g' : Generator) :
  loop_iteration l = (Some s, g') ->
  exists dt : Q,
    t l <= inject_Z (max_hours l)
    /\ time_min (next_fill_time (territory l) (a l))
                (next_fill_time (territory l) (b l)) = Fin dt
    /\ t l + dt <= inject_Z (max_hours l)
    /\ let a' := advance (territory l) dt (a l) in
       let b' := advance (territory l) dt (b l) in
       let t' := t l + dt in
       let crossing := match breakeven l with
                       | None => Qlt_bool (spice a') (spice b')
                       | Some _ => false
                       end in
       let breakeven' := if crossing then Some t' else breakeven l in
       s = mkSample (timeline l ++ [t']) (a_yield l ++ [spice a'])
                    (b_yield l ++ [spice b']) breakeven'
       /\ g' = Suspended
                 (if crossing && stop_at_breakeven l then BreakevenYield else LoopHead)
                 (mkLocals (territory l) (max_hours l) (stop_at_breakeven l) a' b'
                           (timeline l ++ [t']) (a_yield l ++ [spice a'])
                           (b_yield l ++ [spice b']) breakeven' t').
Proof.
  unfold loop_iteration.
  destruct (Qle_bool (t l) (inject_Z (max_hours l))) eqn:Hguard; simpl; [| discriminate].
  destruct (time_min (next_fill_time (territory l) (a l))
                     (next_fill_time (territory l) (b l)))
    as [dt |] eqn:Hmin; [| discriminate].
  unfold Qlt_bool at 1.
  destruct (Qle_bool (t l + dt) (inject_Z (max_hours l))) eqn:Hover; simpl;
    [| discriminate].
  intros H. exists dt.
  apply Qle_bool_iff in Hguard. apply Qle_bool_iff in Hover.
  repeat split; try assumption;
    destruct (match breakeven l with
              | Some _ => false
              | None => Qlt_bool (spice (advance (territory l) dt (a l)))
                                 (spice (advance (territory l) dt (b l)))
              end && stop_at_breakeven l); inversion H; reflexivity.
Qed.

(** A generator that yields was suspended at the head of the loop. *)
Lemma gen_next_yields (g : Generator) (s : Sample) (g' : Generator) :
  gen_next g = (Some s, g') ->
  exists l, g = Suspended LoopHead l /\ loop_iteration l = (Some s, g').
Proof.
  destruct g as [[|] l |]; simpl; intros H; try discriminate.
  exists l; auto.
Qed.

(** A generator that raises [StopIteration] is finished. *)
Lemma gen_next_stops (g g' : Generator) :
  gen_next g = (None, g') -> g' = Exhausted.
Proof.
  destruct g as [[|] l |]; simpl; intros E; try (inversion E; reflexivity).
  unfold loop_iteration in E.
  destruct (negb (Qle_bool (t l) (inject_Z (max_hours l))));
    [inversion E; reflexivity |].
  destruct (time_min _ _); [| inversion E; reflexivity].
  destruct (Qlt_bool _ _); [inversion E; reflexivity |].
  destruct (_ && stop_at_breakeven l); discriminate.
Qed.

(** A pass through the loop yields unless no time is left. *)
Lemma loop_iteration_progress (l : Locals) :
  ((exists s g', loop_iteration l = (Some s, g')) /\ ~ budget_exhausted l)
  \/ (loop_iteration l = (None, Exhausted) /\ budget_exhausted l).
Proof.
  unfold budget_exhausted, overshoots, loop_iteration.
  destruct (Qle_bool (t l) (inject_Z (max_hours l))) eqn:Hguard; simpl.
  - apply Qle_bool_iff in Hguard.
    destruct (time_min _ _) as [dt |].
    + unfold Qlt_bool.
      destruct (Qle_bool (t l + dt) (inject_Z (max_hours l))) eqn:Hover; simpl.
      * apply Qle_bool_iff in Hover. left. split.
        -- destruct (_ && stop_at_breakeven l); eexists; eexists; reflexivity.
        -- intros [H | H]; [exact (H Hguard) | lra].
      * right. split; [reflexivity |]. right.
        apply Qnot_le_lt. intros H. apply Qle_bool_iff in H. congruence.
    + right. split; [reflexivity | right; exact I].
  - right. split; [reflexivity |]. left. intros H.
    apply Qle_bool_iff in H. congruence.
Qed.

(** Proof rule: a property of the yielded tuples follows from an invariant
    of the generator that every yielding [next()] keeps. *)
Lemma emitted_by_invariant (I : Generator -> Prop) (P : Sample -> Prop) :
  (forall g s g', I g -> gen_next g = (Some s, g') -> P s /\ I g') ->
  forall g, I g -> forall s, emitted g s -> P s.
Proof.
  intros Hstep g Hg s [n Hin]. revert g Hg Hin.
  induction n as [| n IH]; intros g Hg Hin; simpl in Hin; [contradiction |].
  destruct (gen_next g) as [[s0 |] g'] eqn:E; [| contradiction].
  destruct (Hstep g s0 g' Hg E) as [HP HI].
  destruct Hin as [-> | Hin]; [exact HP | exact (IH g' HI Hin)].
Qed.

(** The same rule for the generators reached after some calls. *)
Lemma after_by_invariant (I : Generator -> Prop) :
  (forall g s g', I g -> gen_next g = (Some s, g') -> I g') ->
  I Exhausted ->
  forall n g, I g -> I (after n g).
Proof.
  intros Hstep Hex. induction n as [| n IH]; intros g Hg; simpl; [exact Hg |].
  apply IH.
  destruct (gen_next g) as [[s |] g'] eqn:E; simpl.
  - exact (Hstep g s g' Hg E).
  - apply gen_next_stops in E. subst g'. exact Hex.
Qed.

(** The parameters of the call stay in the frame. *)
Lemma frame_of_kept (tr : Territory.t) (mh : Z) (stop : bool)
      (g : Generator) (s : Sample) (g' : Generator) :
  frame_of tr mh stop g -> gen_next g = (Some s, g') -> frame_of tr mh stop g'.
Proof.
  intros Hf Hnext. apply gen_next_yields in Hnext. destruct Hnext as [l [-> Hloop]].
  apply loop_iteration_yields in Hloop. destruct Hloop as (dt & _ & _ & _ & Hres).
  cbv zeta in Hres. destruct Hres as [_ ->]. exact Hf.
Qed.

Lemma take_after (n k : nat) (g : Generator) (s : Sample) :
  nth_error (take n g) k = Some s ->
  exists l, after k g = Suspended LoopHead l
            /\ gen_next (after k g) = (Some s, after (S k) g).
Proof.
  revert n g. induction k as [| k IH]; intros n g Hnth.
  - destruct n as [| n]; simpl in Hnth; [discriminate |].
    destruct (gen_next g) as [[s0 |] g'] eqn:E; simpl in Hnth; [| discriminate].
    inversion Hnth; subst s0. simpl. rewrite E. simpl.
    destruct (gen_next_yields g s g' E) as [l [-> _]]. exists l. auto.
  - destruct n as [| n]; simpl in Hnth; [discriminate |].
    destruct (gen_next g) as [[s0 |] g'] eqn:E; simpl in Hnth; [| discriminate].
    destruct (IH n g' Hnth) as [l [Hl Hn]].
    exists l. change (after (S k) g) with (after k (snd (gen_next g))).
    change (after (S (S k)) g) with (after (S k) (snd (gen_next g))).
    rewrite E. simpl. auto.
Qed.

(** ** The time budget *)

Lemma overshoot_is_discarded (l : Locals) :
  overshoots l -> gen_next (Suspended LoopHead l) = (None, Exhausted).
Proof.
  unfold overshoots. simpl. unfold loop_iteration.
  destruct (negb (Qle_bool (t l) (inject_Z (max_hours l)))); [reflexivity |].
  destruct (time_min _ _) as [dt |]; [| reflexivity].
  intros Hlt. unfold Qlt_bool.
  destruct (Qle_bool (t l + dt) (inject_Z (max_hours l))) eqn:E; [| reflexivity].
  apply Qle_bool_iff in E. lra.
Qed.

(** C5. Every time in every timeline the simulator yields is at most
    [max_hours]; a step whose advanced time is past [max_hours] yields
    nothing and ends the generator, so it never reaches the output. *)
Theorem timeline_within_budget
        (territory : Territory.t) (team_a team_b : Team.t) (label_a label_b : string)
        (max_hours : Z) (stop : bool) :
  (forall s,
      emitted (simulate_progressive territory team_a team_b label_a label_b
                                    max_hours stop) s ->
      Forall (fun x => x <= inject_Z max_hours) (s_timeline s))
  /\ (forall n l,
         after n (simulate_progressive territory team_a team_b label_a label_b
                                       max_hours stop) = Suspended LoopHead l ->
         overshoots l ->
         gen_next (Suspended LoopHead l) = (None, Exhausted)).
Proof.
  split.
  - apply (emitted_by_invariant
             (fun g => match g with
                       | Suspended _ l =>
                           frame_of territory max_hours stop g
                           /\ (t l <= inject_Z max_hours ->
                               Forall (fun x => x <= inject_Z max_hours) (timeline l))
                       | Exhausted => True
                       end)).
    + intros g s g' Hinv Hnext.
      apply gen_next_yields in Hnext. destruct Hnext as [l [-> Hloop]].
      apply loop_iteration_yields in Hloop.
      destruct Hloop as (dt & Hguard & _ & Hover & Hres).
      cbv zeta in Hres. destruct Hres as [-> ->].
      destruct Hinv as [Hf Hinv]. pose proof Hf as (_ & Hmh & _).
      rewrite Hmh in Hguard, Hover.
      assert (Hall : Forall (fun x => x <= inject_Z max_hours)
                            (timeline l ++ [t l + dt])).
      { apply Forall_app. split; [exact (Hinv Hguard) |].
        constructor; [exact Hover | constructor]. }
      split; [exact Hall | split; [exact Hf | intros _; exact Hall]].
    + simpl. split; [auto |]. intros H0. constructor; [exact H0 | constructor].
  - intros n l _. apply overshoot_is_discarded.
Qed.

Lemma timeline_within_budget_witness :
  Forall (fun x => x <= inject_Z 48) [0; 100 # 10].
Proof.
  apply (proj1 (timeline_within_budget sample_territory (meta_team 10) (alchemic_team 8)
                                       "Non-Alchemic" "Alchemic" 48 true)
               (mkSample [0; 100 # 10] [0; 2 # 2] [0; 0] None)).
  exists 1%nat. left. reflexivity.
Defined.

(** ** What the generator yields first *)

Lemma hd_error_snoc (A : Type) (l : list A) (x y : A) :
  hd_error l = Some x -> hd_error (l ++ [y]) = Some x.
Proof. destruct l; simpl; [discriminate | auto]. Qed.

(** C1, as the code has it.  The generator has no [yield] before its loop:
    what it yields first is the tuple of the first step.  Every tuple it
    yields, the first included, has the initial snapshot at index 0 of its
    three lists and at least the entry of one step after it.  The first
    tuple's breakeven is the time of that step when team B is ahead of team
    A there, and [None] otherwise.  There is a first tuple exactly when
    there is time for the first step. *)
Theorem samples_start_with_initial_snapshot
        (territory : Territory.t) (team_a team_b : Team.t) (label_a label_b : string)
        (max_hours : Z) (stop : bool) :
  (forall s,
      emitted (simulate_progressive territory team_a team_b label_a label_b
                                    max_hours stop) s ->
      hd_error (s_timeline s) = Some 0
      /\ hd_error (s_a_yield s) = Some 0
      /\ hd_error (s_b_yield s) = Some 0
      /\ (2 <= List.length (s_timeline s))%nat)
  /\ (forall s g',
         gen_next (simulate_progressive territory team_a team_b label_a label_b
                                        max_hours stop) = (Some s, g') ->
         s_breakeven s = if crossed s then Some (sample_time s) else None)
  /\ (forall l,
         simulate_progressive territory team_a team_b label_a label_b
                              max_hours stop = Suspended LoopHead l ->
         (exists s g', gen_next (Suspended LoopHead l) = (Some s, g'))
         <-> ~ budget_exhausted l).
Proof.
  split; [| split].
  - apply (emitted_by_invariant
             (fun g => match g with
                       | Suspended _ l =>
                           hd_error (timeline l) = Some 0
                           /\ hd_error (a_yield l) = Some 0
                           /\ hd_error (b_yield l) = Some 0
                       | Exhausted => True
                       end)).
    + intros g s g' Hinv Hnext.
      apply gen_next_yields in Hnext. destruct Hnext as [l [-> Hloop]].
      apply loop_iteration_yields in Hloop.
      destruct Hloop as (dt & _ & _ & _ & Hres).
      cbv zeta in Hres. destruct Hres as [-> ->].
      destruct Hinv as (Ht & Ha & Hb). simpl.
      repeat split; try (apply hd_error_snoc; assumption).
      rewrite length_app. simpl.
      destruct (timeline l); [discriminate | simpl; lia].
    + simpl. auto.
  - intros s g' Hnext. simpl in Hnext.
    apply loop_iteration_yields in Hnext.
    destruct Hnext as (dt & _ & _ & _ & Hres).
    cbv zeta in Hres. destruct Hres as [-> _].
    unfold crossed, sample_time. simpl.
    destruct (Qlt_bool _ _); reflexivity.
  - intros l _. simpl.
    destruct (loop_iteration_progress l) as [[Hy Hn] | [Hstop Hex]].
    + split; auto.
    + split; [intros (s & g' & E); congruence | intros Hn; contradiction].
Qed.

Lemma samples_start_with_initial_snapshot_witness :
  hd_error [0; 100 # 10] = Some 0
  /\ hd_error [0; 2 # 2] = Some 0
  /\ hd_error [0; 0] = Some 0
  /\ (2 <= 2)%nat.
Proof.
  apply (proj1 (samples_start_with_initial_snapshot
                  sample_territory (meta_team 10) (alchemic_team 8)
                  "Non-Alchemic" "Alchemic" 48 true)
               (mkSample [0; 100 # 10] [0; 2 # 2] [0; 0] None)).
  exists 1%nat. left. reflexivity.
Defined.

(** The claim as the specification words it fails twice.  With forage 100
    and both speeds 1 the first fill would come at 100 hours, past the 48
    of the budget: nothing is yielded at all.  With speeds 8 and 10 team B
    fills first, at 10 hours, and the first tuple already carries the
    breakeven. *)
Lemma first_sample_counterexample :
  (valid_team (meta_team 1) /\ valid_team (alchemic_team 1)
   /\ take 1 (simulate_progressive sample_territory (meta_team 1) (alchemic_team 1)
                                   "Non-Alchemic" "Alchemic" 48 true) = [])
  /\ (valid_team (meta_team 8) /\ valid_team (alchemic_team 10)
      /\ map reduced
             (take 1 (simulate_progressive sample_territory (meta_team 8)
                                           (alchemic_team 10)
                                           "Non-Alchemic" "Alchemic" 48 true))
         = [mkSample [0; 10] [0; 0] [0; 5 # 2] (Some 10)]).
Proof. repeat split. Qed.

(** ** Teams that never forage *)

(** C2, as the code has it.  When both teams have a speed of at most 0,
    both times to the next fill are infinite; the first pass through the
    loop breaks before anything is appended or yielded.  The generator
    yields no tuple at all and is finished, and no error is raised. *)
Theorem no_speed_yields_nothing
        (territory : Territory.t) (team_a team_b : Team.t) (label_a label_b : string)
        (max_hours : Z) (stop : bool) :
  Team.speed team_a <= 0 -> Team.speed team_b <= 0 ->
  gen_next (simulate_progressive territory team_a team_b label_a label_b
                                 max_hours stop) = (None, Exhausted)
  /\ forall n,
      take n (simulate_progressive territory team_a team_b label_a label_b
                                   max_hours stop) = [].
Proof.
  intros Ha Hb.
  assert (Hnext : gen_next (simulate_progressive territory team_a team_b
                                                 label_a label_b max_hours stop)
                  = (None, Exhausted)).
  { simpl. unfold loop_iteration, next_fill_time. simpl.
    apply Qle_bool_iff in Ha. apply Qle_bool_iff in Hb. rewrite Ha, Hb. simpl.
    destruct (negb (Qle_bool 0 (inject_Z max_hours))); reflexivity. }
  split; [exact Hnext |].
  intros [| n]; [reflexivity |].
  unfold take. rewrite Hnext. reflexivity.
Qed.

Lemma no_speed_yields_nothing_witness :
  take 3 (simulate_progressive sample_territory (meta_team 0) (alchemic_team 0)
                               "Non-Alchemic" "Alchemic" 48 true) = [].
Proof.
  apply (proj2 (no_speed_yields_nothing sample_territory (meta_team 0) (alchemic_team 0)
                                        "Non-Alchemic" "Alchemic" 48 true
                                        ltac:(discriminate) ltac:(discriminate))).
Defined.

(** The specification expects one tuple, the initial state; the code yields
    none. *)
Lemma no_speed_counterexample :
  Team.speed (meta_team 0) <= 0 /\ Team.speed (alchemic_team 0) <= 0
  /\ List.length
       (take 5 (simulate_progressive sample_territory (meta_team 0) (alchemic_team 0)
                                     "Non-Alchemic" "Alchemic" 48 true)) <> 1%nat.
Proof. repeat split; try discriminate. Qed.

(** ** Breakeven *)

(** The tuple a step yields reports the step: its time is the time reached,
    and B is ahead in it when B's spice exceeds A's after the update. *)
Lemma crossed_snoc (tl ay by_ : list Q) (t' sa sb : Q) (bk : option Q) :
  crossed (mkSample (tl ++ [t']) (ay ++ [sa]) (by_ ++ [sb]) bk) = Qlt_bool sa sb
  /\ sample_time (mkSample (tl ++ [t']) (ay ++ [sa]) (by_ ++ [sb]) bk) = t'.
Proof.
  unfold crossed, sample_time. simpl. rewrite !last_last. auto.
Qed.

Lemma take_after_return (n : nat) (l : Locals) :
  take n (Suspended BreakevenYield l) = [].
Proof. destruct n; reflexivity. Qed.

(** Once set, the breakeven is in every later tuple. *)
Lemma breakeven_carried (n : nat) :
  forall (pc : ProgramPoint) (l : Locals) (v : Q),
    breakeven l = Some v ->
    forall e, In e (take n (Suspended pc l)) -> s_breakeven e = Some v.
Proof.
  induction n as [| n IH]; intros pc l v Hbk e Hin; simpl in Hin; [contradiction |].
  destruct pc; [| contradiction].
  destruct (loop_iteration l) as [[s |] g'] eqn:E; [| contradiction].
  apply loop_iteration_yields in E. destruct E as (dt & _ & _ & _ & Hres).
  cbv zeta in Hres. rewrite Hbk in Hres. simpl in Hres. destruct Hres as [-> ->].
  destruct Hin as [<- | Hin]; [reflexivity |].
  apply (IH _ _ v) in Hin; [exact Hin | reflexivity].
Qed.

(** While unset, the breakeven of a tuple is the first crossing so far. *)
Lemma breakeven_is_first_crossing (n : nat) :
  forall (l : Locals),
    breakeven l = None ->
    forall i e,
      nth_error (take n (Suspended LoopHead l)) i = Some e ->
      s_breakeven e = first_crossing (firstn (S i) (take n (Suspended LoopHead l))).
Proof.
  induction n as [| n IH]; intros l Hbk i e Hnth.
  - destruct i; discriminate.
  - simpl in Hnth |- *.
    destruct (loop_iteration l) as [[s |] g'] eqn:E; [| destruct i; discriminate].
    apply loop_iteration_yields in E. destruct E as (dt & _ & _ & _ & Hres).
    cbv zeta in Hres. rewrite Hbk in Hres. destruct Hres as [Hs Hg].
    pose proof (crossed_snoc (timeline l) (a_yield l) (b_yield l) (t l + dt)
                             (spice (advance (territory l) dt (a l)))
                             (spice (advance (territory l) dt (b l)))
                             (if Qlt_bool (spice (advance (territory l) dt (a l)))
                                          (spice (advance (territory l) dt (b l)))
                              then Some (t l + dt) else None)) as [Hc Ht].
    rewrite <- Hs in Hc, Ht.
    unfold first_crossing. simpl firstn. simpl find.
    destruct i as [| j]; simpl in Hnth.
    + inversion Hnth; subst e. rewrite Hc.
      destruct (Qlt_bool _ _) eqn:Hx; simpl.
      * rewrite Ht, Hs. reflexivity.
      * rewrite Hs. reflexivity.
    + rewrite Hc. destruct (Qlt_bool _ _) eqn:Hx; simpl.
      * rewrite Ht. subst g'.
        eapply breakeven_carried; [| eapply nth_error_In; exact Hnth].
        reflexivity.
      * subst g'. simpl in Hnth |- *.
        refine (IH _ _ j e Hnth). reflexivity.
Qed.

(** With [stop_at_breakeven], a tuple with a breakeven ends the run. *)
Lemma stops_at_breakeven (n : nat) :
  forall (l : Locals),
    breakeven l = None -> stop_at_breakeven l = true ->
    forall i e,
      nth_error (take n (Suspended LoopHead l)) i = Some e ->
      s_breakeven e <> None ->
      List.length (take n (Suspended LoopHead l)) = S i
      /\ gen_next (after (S i) (Suspended LoopHead l)) = (None, Exhausted).
Proof.
  induction n as [| n IH]; intros l Hbk Hstop i e Hnth Hset.
  - destruct i; discriminate.
  - simpl in Hnth |- *.
    destruct (loop_iteration l) as [[s |] g'] eqn:E; [| destruct i; discriminate].
    apply loop_iteration_yields in E. destruct E as (dt & _ & _ & _ & Hres).
    cbv zeta in Hres. rewrite Hbk, Hstop in Hres. destruct Hres as [Hs Hg].
    simpl snd.
    destruct (Qlt_bool (spice (advance (territory l) dt (a l)))
                       (spice (advance (territory l) dt (b l)))) eqn:Hx;
      simpl in Hs, Hg; subst g'.
    + rewrite take_after_return in Hnth |- *.
      destruct i as [| j]; [| destruct j; discriminate].
      split; reflexivity.
    + destruct i as [| j]; simpl in Hnth.
      * inversion Hnth; subst e. subst s. simpl in Hset. congruence.
      * edestruct IH as [Hlen Hend]; [| | exact Hnth | exact Hset |];
          [reflexivity | reflexivity |].
        simpl. rewrite Hlen. split; [reflexivity | exact Hend].
Qed.

(** C3. In the tuples of a run the breakeven is [None] up to the first
    step at which team B's spice exceeds team A's after the update; from
    that tuple on it is the time of that step, unchanged.  With
    [stop_at_breakeven] that tuple is the last one and the generator is
    finished after it.  Without, the generator goes on yielding and stops
    only when no time is left. *)
Theorem breakeven_detection
        (territory : Territory.t) (team_a team_b : Team.t) (label_a label_b : string)
        (max_hours : Z) :
  (forall stop n i e,
      nth_error (take n (simulate_progressive territory team_a team_b label_a label_b
                                              max_hours stop)) i = Some e ->
      s_breakeven e
      = first_crossing
          (firstn (S i)
                  (take n (simulate_progressive territory team_a team_b label_a label_b
                                                max_hours stop))))
  /\ (forall n i e,
         nth_error (take n (simulate_progressive territory team_a team_b label_a label_b
                                                 max_hours true)) i = Some e ->
         s_breakeven e <> None ->
         List.length (take n (simulate_progressive territory team_a team_b
                                                   label_a label_b max_hours true))
         = S i
         /\ gen_next (after (S i) (simulate_progressive territory team_a team_b
                                                        label_a label_b max_hours true))
            = (None, Exhausted))
  /\ (forall n pc l,
         after n (simulate_progressive territory team_a team_b label_a label_b
                                       max_hours false) = Suspended pc l ->
         pc = LoopHead
         /\ (((exists s g', gen_next (Suspended pc l) = (Some s, g'))
              /\ ~ budget_exhausted l)
             \/ (gen_next (Suspended pc l) = (None, Exhausted) /\ budget_exhausted l))).
Proof.
  split; [| split].
  - intros stop n i e. apply breakeven_is_first_crossing. reflexivity.
  - intros n i e. apply stops_at_breakeven; reflexivity.
  - intros n pc l Hafter.
    assert (Hinv : match after n (simulate_progressive territory team_a team_b
                                                       label_a label_b max_hours false)
                   with
                   | Suspended pc' l' => pc' = LoopHead /\ stop_at_breakeven l' = false
                   | Exhausted => True
                   end).
    { apply (after_by_invariant
               (fun g => match g with
                         | Suspended pc' l' =>
                             pc' = LoopHead /\ stop_at_breakeven l' = false
                         | Exhausted => True
                         end)).
      - intros g s g' Hg Hnext.
        apply gen_next_yields in Hnext. destruct Hnext as [l0 [-> Hloop]].
        apply loop_iteration_yields in Hloop.
        destruct Hloop as (dt & _ & _ & _ & Hres).
        cbv zeta in Hres. destruct Hres as [_ ->].
        destruct Hg as [_ Hstop]. rewrite Hstop, andb_false_r. auto.
      - exact I.
      - simpl. auto. }
    rewrite Hafter in Hinv. destruct Hinv as [-> _].
    split; [reflexivity |]. simpl. apply loop_iteration_progress.
Qed.

Lemma breakeven_detection_witness :
  List.length (take 5 (simulate_progressive sample_territory (meta_team 10)
                                            (alchemic_team 8)
                                            "Non-Alchemic" "Alchemic" 48 true))
  = 2%nat.
Proof.
  apply (proj1 (proj1 (proj2 (breakeven_detection
                                sample_territory (meta_team 10) (alchemic_team 8)
                                "Non-Alchemic" "Alchemic" 48))
                      5%nat 1%nat
                      (mkSample [0; 100 # 10; 10000 # 800] [0; 2 # 2; 2 # 2]
                                [0; 0; 5 # 2] (Some (10000 # 800)))
                      ltac:(reflexivity) ltac:(discriminate))).
Defined.

(** ** Two teams of the same speed and composition *)

Lemma requirement_equiv (tr : Territory.t) (x y : TeamState) :
  state_equiv x y -> requirement tr x = requirement tr y.
Proof.
  intros (_ & Hf & _ & _ & _ & Hm). unfold requirement. rewrite Hf, Hm. reflexivity.
Qed.

Lemma advance_equiv (tr : Territory.t) (dt : Q) (x y : TeamState) :
  state_equiv x y -> state_equiv (advance tr dt x) (advance tr dt y).
Proof.
  intros Heq. pose proof (requirement_equiv tr x y Heq) as Hreq.
  destruct Heq as (Hs & Hf & Hp & Hv & Ha & Hm).
  unfold advance. rewrite <- Hreq.
  assert (Hb : Qle_bool (requirement tr x) (progress x + speed x * dt)
               = Qle_bool (requirement tr x) (progress y + speed y * dt))
    by (rewrite Hp, Hv; reflexivity).
  rewrite <- Hb.
  destruct (Qle_bool (requirement tr x) (progress x + speed x * dt));
    unfold state_equiv; simpl.
  - rewrite Hs, Ha, Hf. repeat split; auto; reflexivity.
  - rewrite Hp, Hv. repeat split; auto; reflexivity.
Qed.

Lemma level_kept (g : Generator) (s : Sample) (g' : Generator) :
  level g -> gen_next g = (Some s, g') ->
  (Forall2 Qeq (s_a_yield s) (s_b_yield s) /\ s_breakeven s = None) /\ level g'.
Proof.
  intros Hinv Hnext.
  apply gen_next_yields in Hnext. destruct Hnext as [l [-> Hloop]].
  apply loop_iteration_yields in Hloop.
  destruct Hloop as (dt & _ & _ & _ & Hres).
  destruct Hinv as (Heq & Hlists & Hbk).
  pose proof (advance_equiv (territory l) dt (a l) (b l) Heq) as Heq'.
  cbv zeta in Hres. rewrite Hbk in Hres.
  assert (Hno : Qlt_bool (spice (advance (territory l) dt (a l)))
                         (spice (advance (territory l) dt (b l))) = false).
  { unfold Qlt_bool. destruct Heq' as (Hs & _). rewrite Hs.
    rewrite (proj2 (Qle_bool_iff _ _) (Qle_refl _)). reflexivity. }
  rewrite Hno in Hres. simpl in Hres. destruct Hres as [-> ->].
  assert (Hlists' : Forall2 Qeq
                      (a_yield l ++ [spice (advance (territory l) dt (a l))])
                      (b_yield l ++ [spice (advance (territory l) dt (b l))])).
  { apply Forall2_app; [exact Hlists |].
    constructor; [exact (proj1 Heq') | constructor]. }
  simpl. auto.
Qed.

(** C6. Two teams with the same speed and the same number of pets of every
    genetic stay level: in every tuple the simulator yields the two yield
    lists agree at every index, and the breakeven is [None].  (The speed
    may be any number; with a speed of 0 or less nothing is yielded.) *)
Theorem equal_teams_stay_level
        (territory : Territory.t) (team_a team_b : Team.t) (label_a label_b : string)
        (max_hours : Z) (stop : bool) :
  Team.speed team_a == Team.speed team_b ->
  (forall name, count_genetic team_a name = count_genetic team_b name) ->
  forall s,
    emitted (simulate_progressive territory team_a team_b label_a label_b
                                  max_hours stop) s ->
    Forall2 Qeq (s_a_yield s) (s_b_yield s) /\ s_breakeven s = None.
Proof.
  intros Hspeed Hcount.
  apply (emitted_by_invariant level).
  - intros g s g' Hinv Hnext. exact (level_kept g s g' Hinv Hnext).
  - simpl. unfold state_equiv, init_state; simpl.
    rewrite !Hcount. repeat split; try reflexivity; auto.
    constructor; [reflexivity | constructor].
Qed.

Lemma equal_teams_stay_level_witness :
  Forall2 Qeq [0; 2 # 2] [0; 2 # 2].
Proof.
  apply (equal_teams_stay_level
           sample_territory (meta_team 10) (meta_team (20 # 2))
           "Non-Alchemic" "Alchemic" 48 true
           ltac:(reflexivity) ltac:(intros name; reflexivity)
           (mkSample [0; 100 # 10] [0; 2 # 2] [0; 2 # 2] None)).
  exists 1%nat. left. reflexivity.
Defined.

(** ** Ordered histories *)

Lemma count_genetic_nonneg (team : Team.t) (name : string) :
  (0 <= count_genetic team name)%Z.
Proof.
  unfold count_genetic.
  assert (H : forall (l : list Pet.t) (acc : Z),
             (0 <= acc)%Z -> (0 <= fold_left Z.add (map (fun _ => 1%Z) l) acc)%Z).
  { induction l as [| p l IH]; intros acc Hacc; simpl; [exact Hacc |].
    apply IH. lia. }
  apply H. lia.
Qed.

Lemma inject_Z_nonneg (z : Z) : (0 <= z)%Z -> 0 <= inject_Z z.
Proof. intros H. change 0 with (inject_Z 0). rewrite <- Zle_Qle. exact H. Qed.

Lemma inject_Z_pos (z : Z) : (0 < z)%Z -> 0 < inject_Z z.
Proof. intros H. change 0 with (inject_Z 0). rewrite <- Zlt_Qlt. exact H. Qed.

(** The requirement is positive except in cycle 0 of a territory with
    forage 0, where it is 0. *)
Lemma requirement_sign (tr : Territory.t) (st : TeamState) :
  (0 <= Territory.forage tr)%Z -> (0 <= fills st)%Z -> (0 <= monolithic st)%Z ->
  0 <= requirement tr st
  /\ ((0 < Territory.forage tr)%Z \/ (0 < fills st)%Z -> 0 < requirement tr st).
Proof.
  intros HF Hf Hm. unfold requirement, calculate_forage_requirement.
  pose proof (discount_bounds (monolithic st) Hm) as [Hpos _].
  assert (Hpow : 0 < (1 + (2 # 100) / (inject_Z (monolithic st) / 5 + 1)) ^ fills st)
    by (apply Qpower_0_lt; lra).
  pose proof (inject_Z_nonneg _ HF) as HqF. pose proof (inject_Z_nonneg _ Hf) as Hqf.
  split.
  - apply Qmult_le_0_compat; lra.
  - intros Hcase.
    assert (0 < inject_Z (Territory.forage tr) + inject_Z (fills st)).
    { destruct Hcase as [H | H]; apply inject_Z_pos in H; lra. }
    apply Qmult_lt_0_compat; assumption.
Qed.

Lemma advance_ok (tr : Territory.t) (dt : Q) (st : TeamState) :
  (0 <= Territory.forage tr)%Z -> 0 <= dt -> state_ok tr st ->
  state_ok tr (advance tr dt st) /\ spice st <= spice (advance tr dt st).
Proof.
  intros HF Hdt (Hf & Hm & Ha & Hle & Hlt & Hp). unfold advance.
  destruct (Qle_bool (requirement tr st) (progress st + speed st * dt)) eqn:E.
  - set (st' := {| spice := spice st + (1 + (1 # 2) * inject_Z (alchemic st));
                   fills := fills st + 1; progress := 0; speed := speed st;
                   alchemic := alchemic st; monolithic := monolithic st |}).
    assert (Hf' : (0 <= fills st')%Z) by (simpl; lia).
    destruct (requirement_sign tr st' HF Hf' Hm) as [_ Hpos].
    assert (Hreq : 0 < requirement tr st') by (apply Hpos; right; simpl; lia).
    split.
    + unfold state_ok. simpl progress. repeat split; auto; try lra.
    + simpl. pose proof (inject_Z_nonneg _ Ha). lra.
  - assert (Hless : progress st + speed st * dt < requirement tr st).
    { apply Qnot_le_lt. intros H. apply Qle_bool_iff in H. congruence. }
    split; [| simpl; lra].
    unfold state_ok, requirement in *. simpl. repeat split; auto; try lra.
    intros Hs. specialize (Hp Hs).
    assert (0 <= speed st * dt) by (apply Qmult_le_0_compat; lra).
    lra.
Qed.

(** The time to the next fill of a team that forages. *)
Lemma next_fill_time_sign (tr : Territory.t) (st : TeamState) (d : Q) :
  state_ok tr st -> next_fill_time tr st = Fin d ->
  0 <= d /\ ((0 < Territory.forage tr)%Z -> 0 < d).
Proof.
  intros (_ & _ & _ & Hle & Hlt & _). unfold next_fill_time.
  destruct (Qle_bool (speed st) 0) eqn:E; [discriminate |].
  intros H. inversion H; subst d; clear H.
  assert (Hs : 0 < speed st).
  { apply Qnot_le_lt. intros H. apply Qle_bool_iff in H. congruence. }
  split.
  - apply Qle_shift_div_l; [exact Hs | lra].
  - intros HF. specialize (Hlt HF). apply Qlt_shift_div_l; [exact Hs | lra].
Qed.

Lemma time_min_cases (x y : time) : time_min x y = x \/ time_min x y = y.
Proof.
  destruct x as [p |], y as [q |]; simpl; auto.
  destruct (Qlt_bool q p); auto.
Qed.

Lemma step_sign (tr : Territory.t) (x y : TeamState) (dt : Q) :
  state_ok tr x -> state_ok tr y ->
  time_min (next_fill_time tr x) (next_fill_time tr y) = Fin dt ->
  0 <= dt /\ ((0 < Territory.forage tr)%Z -> 0 < dt).
Proof.
  intros Hx Hy Hmin.
  destruct (time_min_cases (next_fill_time tr x) (next_fill_time tr y)) as [E | E];
    rewrite E in Hmin.
  - exact (next_fill_time_sign tr x dt Hx Hmin).
  - exact (next_fill_time_sign tr y dt Hy Hmin).
Qed.

Lemma pairwise_snoc (R : Q -> Q -> Prop) (l : list Q) (y : Q) :
  pairwise R l -> Forall (fun x => R x y) l -> pairwise R (l ++ [y]).
Proof.
  intros Hl Hy i j x z Hij Hi Hj.
  destruct (Nat.lt_ge_cases j (List.length l)) as [Hlt | Hge].
  - rewrite nth_error_app1 in Hi by lia. rewrite nth_error_app1 in Hj by lia.
    exact (Hl i j x z Hij Hi Hj).
  - rewrite nth_error_app2 in Hj by lia.
    destruct (j - List.length l)%nat as [| k] eqn:Ek; simpl in Hj;
      [| destruct k; discriminate].
    inversion Hj; subst z.
    rewrite nth_error_app1 in Hi by lia.
    rewrite Forall_forall in Hy. apply Hy. eapply nth_error_In; exact Hi.
Qed.

Lemma pairwise_singleton (R : Q -> Q -> Prop) (x : Q) : pairwise R [x].
Proof.
  intros i j u v Hij Hi Hj. destruct j as [| j]; [lia |].
  destruct j; discriminate.
Qed.

Lemma bounded_snoc (l : list Q) (u v : Q) :
  Forall (fun x => x <= u) l -> u <= v -> Forall (fun x => x <= v) (l ++ [v]).
Proof.
  intros Hl Huv. apply Forall_app. split.
  - eapply Forall_impl; [| exact Hl]. simpl. intros x Hx. lra.
  - constructor; [lra | constructor].
Qed.

Lemma ordered_kept (g : Generator) (s : Sample) (g' : Generator) :
  ordered g -> gen_next g = (Some s, g') ->
  (non_decreasing (s_timeline s)
   /\ non_decreasing (s_a_yield s)
   /\ non_decreasing (s_b_yield s)
   /\ (forall l, g = Suspended LoopHead l ->
                 (0 < Territory.forage (territory l))%Z ->
                 strictly_increasing (s_timeline s)))
  /\ ordered g'.
Proof.
  intros Hinv Hnext.
  apply gen_next_yields in Hnext. destruct Hnext as [l [-> Hloop]].
  apply loop_iteration_yields in Hloop.
  destruct Hloop as (dt & _ & Hmin & _ & Hres).
  cbv zeta in Hres. destruct Hres as [-> ->].
  destruct Hinv as (HF & Hoka & Hokb & Htb & Htn & Hts & Hab & Han & Hbb & Hbn).
  destruct (step_sign _ _ _ _ Hoka Hokb Hmin) as [Hdt0 Hdtpos].
  destruct (advance_ok (territory l) dt (a l) HF Hdt0 Hoka) as [Hoka' Hsa].
  destruct (advance_ok (territory l) dt (b l) HF Hdt0 Hokb) as [Hokb' Hsb].
  assert (Ht' : t l <= t l + dt) by lra.
  assert (Htn' : non_decreasing (timeline l ++ [t l + dt])).
  { apply pairwise_snoc; [exact Htn |].
    eapply Forall_impl; [| exact Htb]. simpl. intros x Hx. lra. }
  assert (Hts' : (0 < Territory.forage (territory l))%Z ->
                 strictly_increasing (timeline l ++ [t l + dt])).
  { intros Hpos. specialize (Hdtpos Hpos).
    apply pairwise_snoc; [exact (Hts Hpos) |].
    eapply Forall_impl; [| exact Htb]. simpl. intros x Hx. lra. }
  assert (Han' : non_decreasing
                   (a_yield l ++ [spice (advance (territory l) dt (a l))])).
  { apply pairwise_snoc; [exact Han |].
    eapply Forall_impl; [| exact Hab]. simpl. intros x Hx. lra. }
  assert (Hbn' : non_decreasing
                   (b_yield l ++ [spice (advance (territory l) dt (b l))])).
  { apply pairwise_snoc; [exact Hbn |].
    eapply Forall_impl; [| exact Hbb]. simpl. intros x Hx. lra. }
  split.
  - simpl. repeat split; try assumption.
    intros l0 El0 Hpos. inversion El0; subst l0. exact (Hts' Hpos).
  - simpl.
    refine (conj HF (conj Hoka' (conj Hokb' (conj _ (conj Htn' (conj Hts'
              (conj _ (conj Han' (conj _ Hbn')))))))));
      eapply bounded_snoc; eassumption.
Qed.

Lemma ordered_initially
      (tr : Territory.t) (team_a team_b : Team.t) (label_a label_b : string)
      (mh : Z) (stop : bool) :
  (0 <= Territory.forage tr)%Z ->
  ordered (simulate_progressive tr team_a team_b label_a label_b mh stop).
Proof.
  intros HF. simpl.
  assert (Hinit : forall team, state_ok tr (init_state team)).
  { intros team. unfold state_ok, init_state; simpl.
    pose proof (count_genetic_nonneg team ALCHEMIC).
    pose proof (count_genetic_nonneg team MONOLITHIC).
    assert (Hreq : requirement tr
                     {| spice := 0; fills := 0; progress := 0;
                        speed := Team.speed team;
                        alchemic := count_genetic team ALCHEMIC;
                        monolithic := count_genetic team MONOLITHIC |}
                   == inject_Z (Territory.forage tr)).
    { unfold requirement, calculate_forage_requirement. simpl. ring. }
    rewrite Hreq.
    repeat split; try lia.
    - apply inject_Z_nonneg. exact HF.
    - intros Hpos. apply inject_Z_pos. exact Hpos.
    - intros _. apply Qle_refl. }
  refine (conj HF (conj (Hinit team_a) (conj (Hinit team_b) _))).
  repeat split; try apply pairwise_singleton;
    try (constructor; [apply Qle_refl | constructor]).
  intros _. apply pairwise_singleton.
Qed.




(** ** The run is finite *)

Lemma after_exhausted (n : nat) : after n Exhausted = Exhausted.
Proof. induction n as [| n IH]; simpl; auto. Qed.

Lemma requirement_lower (tr : Territory.t) (st : TeamState) :
  (0 <= Territory.forage tr)%Z -> (0 <= fills st)%Z -> (0 <= monolithic st)%Z ->
  inject_Z (Territory.forage tr) + inject_Z (fills st) <= requirement tr st.
Proof.
  intros HF Hf Hm. unfold requirement, calculate_forage_requirement.
  pose proof (discount_bounds (monolithic st) Hm) as [Hpos _].
  assert (Hpow : 1 <= (1 + (2 # 100) / (inject_Z (monolithic st) / 5 + 1)) ^ fills st)
    by (apply Qpower_1_le; [lra | exact Hf]).
  pose proof (inject_Z_nonneg _ HF). pose proof (inject_Z_nonneg _ Hf).
  set (P := (1 + (2 # 100) / (inject_Z (monolithic st) / 5 + 1)) ^ fills st) in *.
  set (u := inject_Z (Territory.forage tr) + inject_Z (fills st)).
  assert (Hu : 0 <= u) by (unfold u; lra).
  assert (1 * u <= P * u) by (apply Qmult_le_compat_r; assumption).
  lra.
Qed.

(** A step never raises a team's potential, and a fill lowers it by at
    least one. *)
Lemma potential_advance (tr : Territory.t) (mh : Z) (now dt : Q) (st : TeamState) :
  (0 <= Territory.forage tr)%Z -> state_ok tr st ->
  potential mh (now + dt) (advance tr dt st) <= potential mh now st
  /\ (0 < speed st -> fills (advance tr dt st) = (fills st + 1)%Z ->
      potential mh (now + dt) (advance tr dt st) <= potential mh now st - 1).
Proof.
  intros HF (Hf & Hm & _ & _ & _ & _).
  pose proof (requirement_lower tr st HF Hf Hm) as Hlow.
  pose proof (inject_Z_nonneg _ HF) as HqF.
  unfold potential, advance.
  destruct (Qle_bool (requirement tr st) (progress st + speed st * dt)) eqn:E; simpl.
  - apply Qle_bool_iff in E.
    destruct (Qle_bool (speed st) 0) eqn:Es.
    + split; [apply Qle_refl |]. intros Hs. apply Qle_bool_iff in Es. lra.
    + replace (fills st + 1 =? 0)%Z with false by (symmetry; apply Z.eqb_neq; lia).
      destruct (fills st =? 0)%Z eqn:E0.
      * apply Z.eqb_eq in E0. rewrite E0 in Hlow. change (inject_Z 0) with 0 in Hlow.
        split; [| intros _ _]; lra.
      * apply Z.eqb_neq in E0.
        assert (1 <= inject_Z (fills st))
          by (change 1 with (inject_Z 1); rewrite <- Zle_Qle; lia).
        split; [| intros _ _]; lra.
  - destruct (Qle_bool (speed st) 0) eqn:Es.
    + split; [apply Qle_refl |]. intros Hs. apply Qle_bool_iff in Es. lra.
    + split; [| intros _ Hfill; lia].
      destruct (fills st =? 0)%Z; lra.
Qed.

(** The team whose fill time is the step fills in that step. *)
Lemma next_fill_time_fills (tr : Territory.t) (st : TeamState) (dt : Q) :
  next_fill_time tr st = Fin dt ->
  0 < speed st /\ fills (advance tr dt st) = (fills st + 1)%Z.
Proof.
  unfold next_fill_time.
  destruct (Qle_bool (speed st) 0) eqn:Es; [discriminate |].
  intros H. inversion H as [Hdt]; clear H.
  assert (Hs : 0 < speed st).
  { apply Qnot_le_lt. intros Hle. apply Qle_bool_iff in Hle. congruence. }
  split; [exact Hs |].
  unfold advance.
  assert (Hreach : requirement tr st
                   <= progress st
                      + speed st * ((requirement tr st - progress st) / speed st)).
  { assert (E : speed st * ((requirement tr st - progress st) / speed st)
                == requirement tr st - progress st) by (field; lra).
    rewrite E. lra. }
  apply Qle_bool_iff in Hreach. rewrite Hreach. reflexivity.
Qed.

Lemma potential_nonneg (tr : Territory.t) (mh : Z) (now : Q) (st : TeamState) :
  state_ok tr st -> now <= inject_Z mh -> 0 <= potential mh now st.
Proof.
  intros (_ & _ & _ & _ & _ & Hp) Hnow. unfold potential.
  destruct (Qle_bool (speed st) 0) eqn:Es; [apply Qle_refl |].
  assert (Hs : 0 < speed st).
  { apply Qnot_le_lt. intros Hle. apply Qle_bool_iff in Hle. congruence. }
  specialize (Hp Hs).
  assert (0 <= (inject_Z mh - now) * speed st) by (apply Qmult_le_0_compat; lra).
  destruct (fills st =? 0)%Z; lra.
Qed.

(** Every step that yields uses up at least one unit of what remains. *)
Lemma remaining_decreases (l : Locals) (s : Sample) (g' : Generator) :
  ordered (Suspended LoopHead l) ->
  loop_iteration l = (Some s, g') ->
  0 <= remaining l
  /\ exists pc l', g' = Suspended pc l' /\ remaining l' <= remaining l - 1.
Proof.
  intros Hord Hloop.
  apply loop_iteration_yields in Hloop.
  destruct Hloop as (dt & Hguard & Hmin & _ & Hres).
  cbv zeta in Hres. destruct Hres as [_ ->].
  destruct Hord as (HF & Hoka & Hokb & _).
  split.
  - unfold remaining.
    pose proof (potential_nonneg _ (max_hours l) (t l) (a l) Hoka Hguard).
    pose proof (potential_nonneg _ (max_hours l) (t l) (b l) Hokb Hguard).
    lra.
  - eexists; eexists; split; [reflexivity |].
    unfold remaining; simpl.
    destruct (potential_advance (territory l) (max_hours l) (t l) dt (a l) HF Hoka)
      as [Ha Ha1].
    destruct (potential_advance (territory l) (max_hours l) (t l) dt (b l) HF Hokb)
      as [Hb Hb1].
    destruct (time_min_cases (next_fill_time (territory l) (a l))
                             (next_fill_time (territory l) (b l))) as [E | E];
      rewrite E in Hmin; apply next_fill_time_fills in Hmin; destruct Hmin as [Hs Hfill].
    + specialize (Ha1 Hs Hfill). lra.
    + specialize (Hb1 Hs Hfill). lra.
Qed.

Lemma exhausted_within (n : nat) :
  forall g,
    ordered g ->
    (forall pc l, g = Suspended pc l -> remaining l < inject_Z (Z.of_nat n)) ->
    after (S n) g = Exhausted.
Proof.
  induction n as [| n IH]; intros g Hord Hrem.
  - simpl. destruct (gen_next g) as [[s |] g'] eqn:E; simpl.
    + exfalso. destruct (gen_next_yields g s g' E) as [l [-> Hloop]].
      destruct (remaining_decreases l s g' Hord Hloop) as [H0 _].
      specialize (Hrem LoopHead l eq_refl).
      change (inject_Z (Z.of_nat 0)) with 0 in Hrem. lra.
    + apply gen_next_stops in E. exact E.
  - change (after (S (S n)) g) with (after (S n) (snd (gen_next g))).
    destruct (gen_next g) as [[s |] g'] eqn:E; simpl snd.
    + destruct (gen_next_yields g s g' E) as [l [-> Hloop]].
      destruct (remaining_decreases l s g' Hord Hloop) as [_ (pc & l' & -> & Hdec)].
      apply IH.
      * exact (proj2 (ordered_kept _ _ _ Hord E)).
      * intros pc0 l0 El0. inversion El0; subst pc0 l0.
        specialize (Hrem LoopHead l eq_refl).
        rewrite Nat2Z.inj_succ in Hrem. unfold Z.succ in Hrem.
        rewrite inject_Z_plus in Hrem. change (inject_Z 1) with 1 in Hrem. lra.
    + apply gen_next_stops in E. subst g'. apply after_exhausted.
Qed.

Lemma take_bounded (n : nat) :
  forall g, after n g = Exhausted ->
            forall m, (List.length (take m g) <= n)%nat.
Proof.
  induction n as [| n IH]; intros g Hend m.
  - simpl in Hend. subst g. destruct m; simpl; lia.
  - destruct m as [| m]; simpl; [lia |].
    simpl in Hend.
    destruct (gen_next g) as [[s |] g'] eqn:E; simpl in Hend |- *; [| lia].
    specialize (IH g' Hend m). lia.
Qed.



(** ** Dicts *)

Section DictFacts.
Context {K V : Type}.
Variable eqb : K -> K -> bool.
Hypothesis eqb_eq : forall x y, eqb x y = true <-> x = y.

Lemma eqb_same (x : K) : eqb x x = true.
Proof. apply eqb_eq. reflexivity. Qed.

Lemma eqb_differ (x y : K) : x <> y -> eqb x y = false.
Proof.
  intros H. destruct (eqb x y) eqn:E; [| reflexivity].
  apply eqb_eq in E. contradiction.
Qed.

Lemma dict_get_set (d : dict K V) (k k' : K) (v : V) :
  dict_get eqb (dict_set eqb d k v) k'
  = if eqb k' k then Some v else dict_get eqb d k'.
Proof.
  induction d as [| [k1 v1] rest IH]; simpl.
  - reflexivity.
  - destruct (eqb k k1) eqn:E1; simpl.
    + apply eqb_eq in E1. subst k1.
      destruct (eqb k' k); reflexivity.
    + rewrite IH. destruct (eqb k' k1) eqn:E2, (eqb k' k) eqn:E3; try reflexivity.
      apply eqb_eq in E2, E3. subst. rewrite eqb_same in E1. discriminate.
Qed.

Lemma dict_keys_set (d : dict K V) (k : K) (v : V) :
  dict_keys (dict_set eqb d k v)
  = if existsb (eqb k) (dict_keys d) then dict_keys d else dict_keys d ++ [k].
Proof.
  unfold dict_keys. induction d as [| [k1 v1] rest IH]; simpl.
  - reflexivity.
  - destruct (eqb k k1) eqn:E1; simpl; [reflexivity |].
    rewrite IH. destruct (existsb (eqb k) (map fst rest)); reflexivity.
Qed.

Lemma existsb_eqb_In (k : K) (l : list K) : existsb (eqb k) l = true <-> In k l.
Proof.
  rewrite existsb_exists. split.
  - intros [x [Hin Hx]]. apply eqb_eq in Hx. subst. exact Hin.
  - intros Hin. exists k. split; [exact Hin | apply eqb_same].
Qed.

Lemma dict_keys_set_NoDup (d : dict K V) (k : K) (v : V) :
  NoDup (dict_keys d) -> NoDup (dict_keys (dict_set eqb d k v)).
Proof.
  intros Hnd. rewrite dict_keys_set.
  destruct (existsb (eqb k) (dict_keys d)) eqn:E; [exact Hnd |].
  apply NoDup_app; [exact Hnd | constructor; [intros [] | constructor] |].
  intros x Hx [<- | []]. apply existsb_eqb_In in Hx. congruence.
Qed.

Lemma dict_get_None (d : dict K V) (k : K) :
  dict_get eqb d k = None <-> ~ In k (dict_keys d).
Proof.
  unfold dict_keys. induction d as [| [k1 v1] rest IH]; simpl.
  - split; auto.
  - destruct (eqb k k1) eqn:E.
    + apply eqb_eq in E. subst. split; [discriminate | intros H; exfalso; auto].
    + rewrite IH. split.
      * intros H [H1 | H1]; [subst; rewrite eqb_same in E; discriminate | auto].
      * intros H H1. auto.
Qed.

Lemma find_over_app {A : Type} (p : A -> bool) (l1 l2 : list A) :
  find p (l1 ++ l2) = match find p l1 with Some x => Some x | None => find p l2 end.
Proof.
  induction l1 as [| x xs IH]; simpl; [reflexivity |].
  destruct (p x); [reflexivity | exact IH].
Qed.

(** A comprehension over a list, started from any dict: a key is found
    with the last item of the list that has it, else as it was. *)
Lemma dict_fold_get {A : Type} (key : A -> K) (value : A -> V)
      (items : list A) (d : dict K V) (k : K) :
  dict_get eqb (fold_left (fun d x => dict_set eqb d (key x) (value x)) items d) k
  = match find (fun x => eqb k (key x)) (rev items) with
    | Some x => Some (value x)
    | None => dict_get eqb d k
    end.
Proof.
  revert d. induction items as [| x xs IH]; intros d; simpl.
  - reflexivity.
  - rewrite IH, find_over_app.
    destruct (find (fun x0 => eqb k (key x0)) (rev xs)); [reflexivity |].
    simpl. rewrite dict_get_set. destruct (eqb k (key x)); reflexivity.
Qed.

Lemma dict_fold_keys_NoDup {A : Type} (f : dict K V -> A -> K) (g : dict K V -> A -> V)
      (items : list A) (d : dict K V) :
  NoDup (dict_keys d) ->
  NoDup (dict_keys (fold_left (fun d x => dict_set eqb d (f d x) (g d x)) items d)).
Proof.
  revert d. induction items as [| x xs IH]; intros d Hnd; simpl; [exact Hnd |].
  apply IH. apply dict_keys_set_NoDup. exact Hnd.
Qed.

Lemma dict_fold_keys_In {A : Type} (key : A -> K) (value : A -> V)
      (items : list A) (d : dict K V) (k : K) :
  In k (dict_keys (fold_left (fun d x => dict_set eqb d (key x) (value x)) items d))
  <-> In k (dict_keys d) \/ In k (map key items).
Proof.
  revert d. induction items as [| x xs IH]; intros d; simpl.
  - tauto.
  - rewrite IH, dict_keys_set.
    destruct (existsb (eqb (key x)) (dict_keys d)) eqn:E.
    + apply existsb_eqb_In in E. split; [tauto |].
      intros [H | [H | H]]; auto. subst. auto.
    + rewrite in_app_iff. simpl. tauto.
Qed.

Lemma dict_by_get {A : Type} (key : A -> K) (value : A -> V) (items : list A) (k : K) :
  dict_get eqb (dict_by eqb key value items) k
  = option_map value (find (fun x => eqb k (key x)) (rev items)).
Proof.
  unfold dict_by. rewrite dict_fold_get.
  destruct (find _ (rev items)); reflexivity.
Qed.

Lemma find_last_unique {A : Type} (key : A -> K) (items : list A) (x : A) :
  NoDup (map key items) -> In x items ->
  find (fun y => eqb (key x) (key y)) items = Some x.
Proof.
  induction items as [| y ys IH]; simpl; intros Hnd Hin; [contradiction |].
  inversion Hnd as [| k ks Hnotin Hnd']; subst.
  destruct Hin as [-> | Hin].
  - rewrite eqb_same. reflexivity.
  - destruct (eqb (key x) (key y)) eqn:E.
    + apply eqb_eq in E. exfalso. apply Hnotin. rewrite <- E. apply in_map. exact Hin.
    + apply IH; assumption.
Qed.

Lemma dict_by_round_trip {A : Type} (key : A -> K) (value : A -> V)
      (items : list A) (x : A) :
  NoDup (map key items) -> In x items ->
  dict_get eqb (dict_by eqb key value items) (key x) = Some (value x).
Proof.
  intros Hnd Hin. rewrite dict_by_get.
  rewrite (find_last_unique key (rev items) x).
  - reflexivity.
  - rewrite map_rev. apply NoDup_rev. exact Hnd.
  - apply in_rev in Hin. exact Hin.
Qed.

Lemma dict_by_keys {A : Type} (key : A -> K) (value : A -> V) (items : list A) :
  NoDup (dict_keys (dict_by eqb key value items))
  /\ (forall k, In k (dict_keys (dict_by eqb key value items)) <-> In k (map key items))
  /\ (forall k, In k (dict_keys (dict_by eqb key value items)) ->
                exists x, In x items /\ key x = k
                          /\ dict_get eqb (dict_by eqb key value items) k
                             = Some (value x)).
Proof.
  unfold dict_by.
  assert (Hin : forall k,
             In k (dict_keys (fold_left (fun d x => dict_set eqb d (key x) (value x))
                                        items []))
             <-> In k (map key items)).
  { intros k. rewrite dict_fold_keys_In. simpl. tauto. }
  split; [| split].
  - apply (dict_fold_keys_NoDup (fun _ x => key x) (fun _ x => value x)). constructor.
  - exact Hin.
  - intros k Hk. rewrite dict_fold_get.
    destruct (find (fun x => eqb k (key x)) (rev items)) as [x |] eqn:E.
    + apply find_some in E. destruct E as [Hx Hkx]. apply eqb_eq in Hkx.
      exists x. split; [apply in_rev; exact Hx | split; [symmetry; exact Hkx | reflexivity]].
    + exfalso. apply Hin in Hk. apply in_map_iff in Hk. destruct Hk as [x [Hkx Hx]].
      apply in_rev in Hx.
      pose proof (find_none _ _ E x Hx) as Hno. simpl in Hno.
      subst k. rewrite eqb_same in Hno. discriminate.
Qed.

End DictFacts.

(** ** The lookup tables of loader.py *)

(** Looking a key up in the table of ids, of genetic names or of territory
    names returns the last item of the list with that key, and fails when
    no item has it: of two items with the same key the later one wins. *)
Theorem lookup_returns_last_match :
  (forall genetics id,
      dict_get Z.eqb (build_genetics_by_id genetics) id
      = find (fun g => Z.eqb id (Genetic.id g)) (rev genetics))
  /\ (forall genetics name,
         dict_get String.eqb (build_genetics_by_name genetics) name
         = find (fun g => String.eqb name (Genetic.name g)) (rev genetics))
  /\ (forall territories name,
         dict_get String.eqb (build_territories_by_name territories) name
         = find (fun t => String.eqb name (Territory.name t)) (rev territories)).
Proof.
  split; [| split]; intros items k.
  - unfold build_genetics_by_id. rewrite (dict_by_get Z.eqb Z.eqb_eq).
    destruct (find _ (rev items)); reflexivity.
  - unfold build_genetics_by_name. rewrite (dict_by_get String.eqb String.eqb_eq).
    destruct (find _ (rev items)); reflexivity.
  - unfold build_territories_by_name. rewrite (dict_by_get String.eqb String.eqb_eq).
    destruct (find _ (rev items)); reflexivity.
Qed.

(** When the keys of the catalog are distinct, every item is found again
    under its own key, in each of the three tables. *)
Theorem lookup_round_trip :
  (forall genetics g,
      NoDup (map Genetic.id genetics) -> In g genetics ->
      dict_get Z.eqb (build_genetics_by_id genetics) (Genetic.id g) = Some g)
  /\ (forall genetics g,
         NoDup (map Genetic.name genetics) -> In g genetics ->
         dict_get String.eqb (build_genetics_by_name genetics) (Genetic.name g) = Some g)
  /\ (forall territories t,
         NoDup (map Territory.name territories) -> In t territories ->
         dict_get String.eqb (build_territories_by_name territories) (Territory.name t)
         = Some t).
Proof.
  split; [| split]; intros items x Hnd Hin.
  - exact (dict_by_round_trip Z.eqb Z.eqb_eq Genetic.id (fun g => g) items x Hnd Hin).
  - exact (dict_by_round_trip String.eqb String.eqb_eq Genetic.name (fun g => g)
                              items x Hnd Hin).
  - exact (dict_by_round_trip String.eqb String.eqb_eq Territory.name (fun t => t)
                              items x Hnd Hin).
Qed.

Lemma lookup_round_trip_witness :
  dict_get String.eqb
           (build_territories_by_name [sample_territory; bare_territory])
           "Barren"%string
  = Some bare_territory.
Proof.
  apply (proj2 (proj2 lookup_round_trip) [sample_territory; bare_territory]
               bare_territory).
  - repeat constructor; simpl; intuition discriminate.
  - right; left; reflexivity.
Defined.

(** The names the territory select box offers, [list(territory_lookup)],
    are the names of the catalog, each once; every one of them can be
    looked up, and gives a territory of the catalog with that name. *)
Theorem territory_names_resolve (territories : list Territory.t) :
  let lookup := build_territories_by_name territories in
  NoDup (dict_keys lookup)
  /\ (forall name, In name (dict_keys lookup) <-> In name (map Territory.name territories))
  /\ (forall name, In name (dict_keys lookup) ->
                   exists t, In t territories /\ Territory.name t = name
                             /\ dict_get String.eqb lookup name = Some t).
Proof.
  exact (dict_by_keys String.eqb String.eqb_eq Territory.name (fun t => t) territories).
Qed.

Lemma territory_names_resolve_witness :
  exists t, In t [sample_territory; bare_territory; sample_territory]
            /\ Territory.name t = "Grasslands"%string
            /\ dict_get String.eqb
                        (build_territories_by_name
                           [sample_territory; bare_territory; sample_territory])
                        "Grasslands"%string = Some t.
Proof.
  apply (proj2 (proj2 (territory_names_resolve
                         [sample_territory; bare_territory; sample_territory]))).
  left. reflexivity.
Defined.

(** ** Counting genetics *)

Lemma fold_add_shift (l : list Z) (acc : Z) :
  fold_left Z.add l acc = (acc + fold_left Z.add l 0)%Z.
Proof.
  revert acc. induction l as [| x xs IH]; intros acc; simpl; [lia |].
  rewrite (IH (acc + x)%Z), (IH x). lia.
Qed.

Lemma count_genetic_length (team : Team.t) (name : string) :
  count_genetic team name
  = Z.of_nat (List.length
                (filter (fun pet => String.eqb (Genetic.name (Pet.genetic pet)) name)
                        (Team.pets team))).
Proof.
  unfold count_genetic.
  induction (filter _ (Team.pets team)) as [| p ps IH]; simpl; [reflexivity |].
  rewrite fold_add_shift, IH. lia.
Qed.

Lemma counts_fold_get (pets : list Pet.t) (acc : dict string Z) (name : string) :
  let c := Z.of_nat (List.length
                       (filter (fun pet =>
                                  String.eqb (Genetic.name (Pet.genetic pet)) name)
                               pets)) in
  dict_get String.eqb
    (fold_left
       (fun counts pet =>
          dict_set String.eqb counts (Genetic.name (Pet.genetic pet))
                   (match dict_get String.eqb counts (Genetic.name (Pet.genetic pet)) with
                    | Some c => c
                    | None => 0
                    end + 1)%Z)
       pets acc) name
  = if (c =? 0)%Z then dict_get String.eqb acc name
    else Some (match dict_get String.eqb acc name with Some c0 => c0 | None => 0 end
               + c)%Z.
Proof.
  revert acc. induction pets as [| p ps IH]; intros acc; simpl.
  - reflexivity.
  - cbv zeta in IH. rewrite IH. clear IH.
    rewrite (dict_get_set String.eqb String.eqb_eq).
    rewrite (String.eqb_sym name).
    destruct (String.eqb (Genetic.name (Pet.genetic p)) name) eqn:E;
      cbn [Datatypes.length].
    + apply String.eqb_eq in E. rewrite E.
      set (n := List.length (filter _ ps)).
      replace (Z.of_nat (S n) =? 0)%Z with false by (symmetry; apply Z.eqb_neq; lia).
      destruct (Z.of_nat n =? 0)%Z eqn:En.
      * apply Z.eqb_eq in En. f_equal. lia.
      * f_equal. lia.
    + reflexivity.
Qed.

Lemma genetics_counts_get (team : Team.t) (name : string) :
  dict_get String.eqb (genetics_counts team) name
  = if (count_genetic team name =? 0)%Z then None
    else Some (count_genetic team name).
Proof.
  unfold genetics_counts. rewrite count_genetic_length.
  pose proof (counts_fold_get (Team.pets team) [] name) as H. cbv zeta in H.
  rewrite H. simpl. reflexivity.
Qed.

(** [genetics_counts] and [count_genetic] count the same: a name is a key
    of the dict exactly when some pet has it, and its value is the number
    [count_genetic] gives. *)
Theorem genetics_counts_agree (team : Team.t) (name : string) :
  dict_get String.eqb (genetics_counts team) name
  = (if (count_genetic team name =? 0)%Z then None
     else Some (count_genetic team name))
  /\ (In name (dict_keys (genetics_counts team))
      <-> exists pet, In pet (Team.pets team)
                      /\ Genetic.name (Pet.genetic pet) = name).
Proof.
  split; [exact (genetics_counts_get team name) |].
  pose proof (dict_get_None String.eqb String.eqb_eq (genetics_counts team) name) as Hn.
  rewrite genetics_counts_get, count_genetic_length in Hn.
  destruct (filter (fun pet => String.eqb (Genetic.name (Pet.genetic pet)) name)
                   (Team.pets team)) as [| p ps] eqn:Ef.
  - simpl in Hn. split.
    + intros Hin. exfalso. exact (proj1 Hn eq_refl Hin).
    + intros (pet & Hin & Hname). exfalso.
      assert (Hf : In pet (filter (fun pet => String.eqb (Genetic.name (Pet.genetic pet))
                                                         name)
                                  (Team.pets team))).
      { apply filter_In. split; [exact Hin | apply String.eqb_eq; exact Hname]. }
      rewrite Ef in Hf. exact Hf.
  - split.
    + intros _. exists p.
      assert (Hf : In p (filter (fun pet => String.eqb (Genetic.name (Pet.genetic pet))
                                                       name)
                                (Team.pets team)))
        by (rewrite Ef; left; reflexivity).
      apply filter_In in Hf. destruct Hf as [Hin Hname].
      split; [exact Hin | apply String.eqb_eq; exact Hname].
    + intros _.
      destruct (in_dec string_dec name (dict_keys (genetics_counts team)))
        as [Hin | Hnot]; [exact Hin |].
      apply Hn in Hnot. simpl in Hnot.
      destruct (Z.pos (Pos.of_succ_nat (List.length ps)) =? 0)%Z eqn:E;
        [apply Z.eqb_eq in E; lia | discriminate].
Qed.

Lemma genetics_counts_agree_witness :
  In "Alchemic"%string (dict_keys (genetics_counts (alchemic_team 10))).
Proof.
  apply (proj2 (genetics_counts_agree (alchemic_team 10) "Alchemic"%string)).
  exists (pet_of 5 "Alchemic"%string). split; [left; reflexivity | reflexivity].
Defined.

Lemma counts_sum_set (d : dict string Z) (k : string) :
  fold_right Z.add 0%Z
             (map snd (dict_set String.eqb d k
                                (match dict_get String.eqb d k with
                                 | Some c => c
                                 | None => 0
                                 end + 1)%Z))
  = (fold_right Z.add 0 (map snd d) + 1)%Z.
Proof.
  induction d as [| [k1 v1] rest IH]; simpl; [reflexivity |].
  destruct (String.eqb k k1); simpl; [lia | rewrite IH; lia].
Qed.

Lemma dict_get_of_item (d : dict string Z) (k : string) (v : Z) :
  NoDup (dict_keys d) -> In (k, v) d -> dict_get String.eqb d k = Some v.
Proof.
  unfold dict_keys. induction d as [| [k1 v1] rest IH]; simpl; intros Hnd Hin;
    [contradiction |].
  inversion Hnd as [| x xs Hnotin Hnd']; subst.
  destruct Hin as [Heq | Hin].
  - inversion Heq; subst. rewrite String.eqb_refl. reflexivity.
  - destruct (String.eqb k k1) eqn:E.
    + apply String.eqb_eq in E. subst. exfalso. apply Hnotin.
      change k1 with (fst (k1, v)). apply in_map. exact Hin.
    + apply IH; assumption.
Qed.

(** The counts of [genetics_counts] add up to the size of the team; its
    keys are distinct and every count is at least 1. *)
Theorem genetics_counts_total (team : Team.t) :
  fold_right Z.add 0%Z (map snd (genetics_counts team)) = Team.size team
  /\ NoDup (dict_keys (genetics_counts team))
  /\ (forall name c, In (name, c) (genetics_counts team) -> (1 <= c)%Z).
Proof.
  assert (Hnd : NoDup (dict_keys (genetics_counts team))).
  { unfold genetics_counts.
    apply (dict_fold_keys_NoDup String.eqb String.eqb_eq
             (fun _ pet => Genetic.name (Pet.genetic pet))
             (fun counts pet =>
                (match dict_get String.eqb counts (Genetic.name (Pet.genetic pet)) with
                 | Some c => c
                 | None => 0
                 end + 1)%Z)).
    constructor. }
  split; [| split; [exact Hnd |]].
  - unfold genetics_counts, Team.size.
    assert (H : forall pets acc,
               fold_right Z.add 0%Z
                 (map snd
                    (fold_left
                       (fun counts pet =>
                          dict_set String.eqb counts (Genetic.name (Pet.genetic pet))
                                   (match dict_get String.eqb counts
                                                   (Genetic.name (Pet.genetic pet)) with
                                    | Some c => c
                                    | None => 0
                                    end + 1)%Z)
                       pets acc))
               = (fold_right Z.add 0 (map snd acc) + Z.of_nat (List.length pets))%Z).
    { induction pets as [| p ps IH]; intros acc; simpl fold_left; simpl List.length.
      - lia.
      - rewrite IH, counts_sum_set. lia. }
    rewrite H. simpl. reflexivity.
  - intros name c Hin.
    pose proof (dict_get_of_item _ name c Hnd Hin) as Hget.
    rewrite genetics_counts_get in Hget.
    pose proof (count_genetic_nonneg team name).
    destruct (count_genetic team name =? 0)%Z eqn:E; [discriminate |].
    apply Z.eqb_neq in E. inversion Hget. lia.
Qed.

Lemma genetics_counts_total_witness :
  (1 <= 3)%Z.
Proof.
  apply (proj2 (proj2 (genetics_counts_total (alchemic_team 8))) "Alchemic"%string 3%Z).
  left. reflexivity.
Defined.

(** ** File names *)

Lemma list_ascii_of_string_app (s1 s2 : string) :
  list_ascii_of_string (s1 ++ s2) = list_ascii_of_string s1 ++ list_ascii_of_string s2.
Proof. induction s1 as [| c s1 IH]; simpl; [reflexivity | rewrite IH; reflexivity]. Qed.

Lemma string_of_list_ascii_app (l1 l2 : list ascii) :
  string_of_list_ascii (l1 ++ l2)
  = (string_of_list_ascii l1 ++ string_of_list_ascii l2)%string.
Proof. induction l1 as [| c l1 IH]; simpl; [reflexivity | rewrite IH; reflexivity]. Qed.

Lemma slug_char_kept (c : ascii) :
  is_slug_char c = true -> space_to_underscore c = c.
Proof.
  unfold space_to_underscore. destruct (Ascii.eqb_spec c " "%char) as [-> | Hne];
    [discriminate | reflexivity].
Qed.

Lemma filter_idempotent (A : Type) (p : A -> bool) (l : list A) :
  filter p (filter p l) = filter p l.
Proof.
  induction l as [| x xs IH]; simpl; [reflexivity |].
  destruct (p x) eqn:E; simpl; [rewrite E, IH; reflexivity | exact IH].
Qed.

Lemma map_kept_on_filter (l : list ascii) :
  map space_to_underscore (filter is_slug_char l) = filter is_slug_char l.
Proof.
  induction l as [| x xs IH]; simpl; [reflexivity |].
  destruct (is_slug_char x) eqn:E; simpl; [| exact IH].
  rewrite IH, (slug_char_kept x E). reflexivity.
Qed.

Lemma slugify_chars (s : string) :
  Forall (fun c => is_slug_char c = true) (list_ascii_of_string (slugify s)).
Proof.
  unfold slugify. rewrite list_ascii_of_string_of_list_ascii.
  apply Forall_forall. intros c Hc. apply filter_In in Hc. apply Hc.
Qed.

Lemma slugify_app (s1 s2 : string) :
  slugify (s1 ++ s2) = (slugify s1 ++ slugify s2)%string.
Proof.
  unfold slugify.
  rewrite list_ascii_of_string_app, map_app, filter_app, string_of_list_ascii_app.
  reflexivity.
Qed.

(** [slugify] keeps letters, digits and underscores, turns every space into
    an underscore and deletes the rest.  Its result has only letters,
    digits and underscores (no space, dot or slash), is never longer than
    the input, and slugifying it again changes nothing. *)
Theorem slugify_is_a_clean_name (s : string) :
  Forall (fun c => is_slug_char c = true) (list_ascii_of_string (slugify s))
  /\ slugify (slugify s) = slugify s
  /\ (String.length (slugify s) <= String.length s)%nat
  /\ (forall c, In c [" "; "."; "/"; "\"; "-"]%char ->
                ~ In c (list_ascii_of_string (slugify s))).
Proof.
  split; [exact (slugify_chars s) |].
  split.
  - unfold slugify at 1 2. rewrite list_ascii_of_string_of_list_ascii.
    rewrite map_kept_on_filter, filter_idempotent. reflexivity.
  - split.
    + unfold slugify.
      rewrite <- (string_of_list_ascii_of_string s) at 2.
      assert (Hlen : forall l, String.length (string_of_list_ascii l) = List.length l).
      { induction l as [| c l IH]; simpl; [reflexivity | rewrite IH; reflexivity]. }
      rewrite !Hlen.
      etransitivity; [apply filter_length_le |]. rewrite length_map. lia.
    + intros c Hc Hin.
      pose proof (slugify_chars s) as Hall. rewrite Forall_forall in Hall.
      specialize (Hall c Hin).
      simpl in Hc.
      destruct Hc as [<- | [<- | [<- | [<- | [<- | []]]]]]; discriminate Hall.
Qed.

Lemma slugify_is_a_clean_name_witness :
  ~ In "/"%char (list_ascii_of_string (slugify "../etc/passwd")).
Proof.
  apply (proj2 (proj2 (proj2 (slugify_is_a_clean_name "../etc/passwd"))) "/"%char).
  simpl. auto.
Defined.

Lemma string_app_assoc (s1 s2 s3 : string) :
  ((s1 ++ s2) ++ s3)%string = (s1 ++ (s2 ++ s3))%string.
Proof. induction s1 as [| c s1 IH]; simpl; [reflexivity | rewrite IH; reflexivity]. Qed.

Lemma spice_file_name (territory : Territory.t) :
  (slugify (spice_name territory) ++ ".png")%string
  = (slugify (Territory.name territory) ++ "_Spice.png")%string.
Proof.
  unfold spice_name. rewrite slugify_app.
  change (slugify " Spice") with "_Spice"%string.
  rewrite string_app_assoc. reflexivity.
Qed.

(** [slugify] works character by character: the slug of a concatenation is
    the concatenation of the slugs.  So the file name of a territory's
    spice icon is the slug of the territory's name followed by
    ["_Spice.png"]. *)
Theorem slugify_concatenates (s1 s2 : string) (territory : Territory.t) :
  slugify (s1 ++ s2) = (slugify s1 ++ slugify s2)%string
  /\ (slugify (spice_name territory) ++ ".png")%string
     = (slugify (Territory.name territory) ++ "_Spice.png")%string.
Proof.
  split; [apply slugify_app | apply spice_file_name].
Qed.

(** *** Asset paths *)

Lemma split_parts_no_slash (cs piece : list ascii) :
  ~ In "/"%char cs ->
  split_parts cs piece = close_piece (rev cs ++ piece) [].
Proof.
  revert piece. induction cs as [| c cs IH]; intros piece Hno; simpl.
  - reflexivity.
  - destruct (Ascii.eqb_spec c "/"%char) as [-> | Hne].
    + exfalso. apply Hno. left. reflexivity.
    + rewrite IH by (intros H; apply Hno; right; exact H).
      rewrite <- app_assoc. reflexivity.
Qed.

(** A file name made of a slug and [".png"] is one path part. *)
Lemma png_name_is_one_part (name : string) :
  is_absolute (slugify name ++ ".png") = false
  /\ parts (Path (slugify name ++ ".png")) = [(slugify name ++ ".png")%string].
Proof.
  pose proof (slugify_chars name) as Hall. rewrite Forall_forall in Hall.
  split.
  - destruct (slugify name) as [| c r] eqn:E; simpl; [reflexivity |].
    destruct (Ascii.eqb_spec c "/"%char) as [-> | Hne]; [| reflexivity].
    specialize (Hall "/"%char (or_introl eq_refl)). discriminate.
  - unfold Path. simpl parts.
    rewrite split_parts_no_slash.
    + rewrite app_nil_r. unfold close_piece.
      destruct (rev (list_ascii_of_string (slugify name ++ ".png"))) as [| c r] eqn:Er.
      * exfalso. apply (f_equal (@List.length ascii)) in Er.
        rewrite length_rev, list_ascii_of_string_app, length_app in Er. simpl in Er. lia.
      * rewrite <- Er, rev_involutive, string_of_list_ascii_of_string.
        destruct (String.eqb_spec (slugify name ++ ".png") ".") as [Heq | Hne];
          [| reflexivity].
        exfalso. apply (f_equal String.length) in Heq.
        assert (Hlen : forall s1 s2, String.length (s1 ++ s2)
                                     = (String.length s1 + String.length s2)%nat).
        { induction s1 as [| c1 s1 IH]; intros s2; simpl; [reflexivity |].
          rewrite IH. reflexivity. }
        rewrite Hlen in Heq. simpl in Heq. lia.
    + rewrite list_ascii_of_string_app, in_app_iff. intros [H | H].
      * specialize (Hall _ H). discriminate.
      * simpl in H. repeat (destruct H as [H | H]; [discriminate |]). exact H.
Qed.

(** Whatever the name in the catalog, the three asset paths are relative,
    stay in their assets directory and have the slug as file name: a name
    with slashes or dots cannot point anywhere else. *)
Theorem asset_paths_stay_in_place (g : Genetic.t) (territory : Territory.t) :
  icon_path g
  = mkPath false ["assets"; "genetics"; slugify (Genetic.name g) ++ ".png"]%string
  /\ spice_icon_path territory
     = mkPath false ["assets"; "spices";
                     slugify (Territory.name territory) ++ "_Spice.png"]%string
  /\ background_path territory
     = mkPath false ["assets"; "territories";
                     slugify (Territory.name territory) ++ ".png"]%string.
Proof.
  unfold icon_path, spice_icon_path, background_path, path_div.
  destruct (png_name_is_one_part (Genetic.name g)) as [Ea Ep].
  destruct (png_name_is_one_part (Territory.name territory)) as [Ea' Ep'].
  destruct (png_name_is_one_part (spice_name territory)) as [Ea'' Ep''].
  rewrite Ea, Ep, Ea', Ep', Ea'', Ep''.
  rewrite (spice_file_name territory). repeat split.
Qed.

(** ** Validated teams *)

Lemma valid_team_facts (tm : Team.t) :
  valid_team tm ->
  (Team.size tm <= MAX_TEAM_SIZE)%Z
  /\ (Team.manual_speed tm = None -> Team.any_power_missing tm = false).
Proof.
  unfold valid_team, Team.post_init.
  destruct (Z.ltb_spec MAX_TEAM_SIZE (Team.size tm)) as [Hlt | Hle]; [discriminate |].
  destruct (Team.manual_speed tm); simpl.
  - intros _. split; [exact Hle | discriminate].
  - destruct (Team.any_power_missing tm); [discriminate |].
    intros _. split; [exact Hle | reflexivity].
Qed.

Lemma powers_all_defined (pets : list Pet.t) :
  existsb (fun pet => match Pet.power pet with None => true | Some _ => false end) pets
  = false ->
  exists powers,
    map Pet.power pets = map Some powers
    /\ map (fun pet => match Pet.power pet with Some p => p | None => 0 end) pets
       = powers.
Proof.
  induction pets as [| p ps IH]; simpl; intros H.
  - exists []. split; reflexivity.
  - apply orb_false_elim in H. destruct H as [Hp Hps].
    destruct (IH Hps) as [powers [E1 E2]].
    destruct (Pet.power p) as [q |] eqn:Eq; [| discriminate].
    exists (q :: powers). simpl. rewrite E1, E2. split; reflexivity.
Qed.

(** The speed of a team that passed validation is its manual speed when
    one is set, and otherwise the sum of the powers its pets really have:
    the 0.0 the code substitutes for a missing power is never added. *)
Theorem validated_team_speed (tm : Team.t) :
  valid_team tm ->
  match Team.manual_speed tm with
  | Some s => Team.speed tm = s
  | None =>
      exists powers,
        map Pet.power (Team.pets tm) = map Some powers
        /\ Team.speed tm = fold_left Qplus powers 0
  end.
Proof.
  intros Hv. destruct (valid_team_facts tm Hv) as [_ Hall].
  unfold Team.speed. destruct (Team.manual_speed tm) as [s |]; [reflexivity |].
  destruct (powers_all_defined (Team.pets tm) (Hall eq_refl)) as [powers [E1 E2]].
  exists powers. rewrite E2. split; [exact E1 | reflexivity].
Qed.

Lemma validated_team_speed_witness :
  Team.speed (Team.mk "Foragers" [Pet.mk (Genetic.mk 3 "Forager") (Some (5 # 2));
                                  Pet.mk (Genetic.mk 3 "Forager") (Some 4)]
                      None None)
  == 13 # 2.
Proof.
  pose proof (validated_team_speed
                (Team.mk "Foragers" [Pet.mk (Genetic.mk 3 "Forager") (Some (5 # 2));
                                     Pet.mk (Genetic.mk 3 "Forager") (Some 4)]
                         None None)
                ltac:(reflexivity)) as [powers [E1 E2]].
  simpl in E1, E2. rewrite E2.
  destruct powers as [| p1 [| p2 [| p3 ps]]]; try discriminate.
  inversion E1; subst. reflexivity.
Defined.

Lemma disjoint_filters_length (A : Type) (p q : A -> bool) (l : list A) :
  (forall x, p x = true -> q x = false) ->
  (List.length (filter p l) + List.length (filter q l) <= List.length l)%nat.
Proof.
  intros Hpq. induction l as [| x xs IH]; simpl; [lia |].
  destruct (p x) eqn:Ep.
  - rewrite (Hpq x Ep). simpl. lia.
  - destruct (q x); simpl; lia.
Qed.

(** In a team that passed validation the pets of two different genetics
    are at most 4 together.  So a team has at most 4 alchemic and
    monolithic pets in all, and a fill brings it between 1 and 3 spice. *)
Theorem genetic_counts_bounded (tm : Team.t) (name1 name2 : string) :
  valid_team tm -> name1 <> name2 ->
  (0 <= count_genetic tm name1)%Z /\ (0 <= count_genetic tm name2)%Z
  /\ (count_genetic tm name1 + count_genetic tm name2 <= 4)%Z
  /\ (count_genetic tm ALCHEMIC + count_genetic tm MONOLITHIC <= 4)%Z
  /\ 1 <= 1 + (1 # 2) * inject_Z (count_genetic tm ALCHEMIC) <= 3.
Proof.
  intros Hv Hne. destruct (valid_team_facts tm Hv) as [Hsize _].
  unfold Team.size, MAX_TEAM_SIZE in Hsize.
  assert (Hpair : forall n1 n2, n1 <> n2 ->
                                (count_genetic tm n1 + count_genetic tm n2 <= 4)%Z).
  { intros n1 n2 Hn. rewrite !count_genetic_length.
    pose proof (disjoint_filters_length _
                  (fun pet => String.eqb (Genetic.name (Pet.genetic pet)) n1)
                  (fun pet => String.eqb (Genetic.name (Pet.genetic pet)) n2)
                  (Team.pets tm)) as H.
    assert (Hd : forall x,
               String.eqb (Genetic.name (Pet.genetic x)) n1 = true ->
               String.eqb (Genetic.name (Pet.genetic x)) n2 = false).
    { intros x Hx. apply String.eqb_eq in Hx. apply String.eqb_neq. congruence. }
    specialize (H Hd). lia. }
  pose proof (count_genetic_nonneg tm name1) as H1.
  pose proof (count_genetic_nonneg tm name2) as H2.
  pose proof (count_genetic_nonneg tm ALCHEMIC) as Ha.
  pose proof (count_genetic_nonneg tm MONOLITHIC) as Hm.
  pose proof (Hpair ALCHEMIC MONOLITHIC ltac:(discriminate)) as Ham.
  repeat split; auto.
  - apply inject_Z_nonneg in Ha. lra.
  - assert (Hq : inject_Z (count_genetic tm ALCHEMIC) <= inject_Z 4)
      by (rewrite <- Zle_Qle; lia).
    change (inject_Z 4) with 4 in Hq. lra.
Qed.

Lemma genetic_counts_bounded_witness :
  (count_genetic (alchemic_team 8) ALCHEMIC
   + count_genetic (alchemic_team 8) MONOLITHIC <= 4)%Z.
Proof.
  apply (genetic_counts_bounded (alchemic_team 8) "Alchemic" "Converter"
                                ltac:(reflexivity) ltac:(discriminate)).
Defined.

(** Which error a construction raises.  More than four pets give the size
    error, with the number of pets in its message, whether or not powers
    are missing.  With at most four pets, a pet without power and no manual
    speed give the power error.  A team without pets is accepted, and its
    speed is 0. *)
Theorem team_construction_errors
        (name : string) (pets : list Pet.t) (territory : option string)
        (manual_speed : option Q) :
  ((4 < Z.of_nat (List.length pets))%Z ->
   Team.new name pets territory manual_speed
   = inl (Raise ("A team cannot contain more than 4 pets (got "
                   ++ str_int (Z.of_nat (List.length pets)) ++ ").")))
  /\ ((Z.of_nat (List.length pets) <= 4)%Z ->
      (exists pet, In pet pets /\ Pet.power pet = None) ->
      Team.new name pets territory None
      = inl (Raise "All pets must have power if manual speed is not set."))
  /\ Team.new name [] territory None = inr (Team.mk name [] territory None)
  /\ Team.speed (Team.mk name [] territory None) = 0.
Proof.
  split; [| split; [| split; reflexivity]].
  - intros Hbig. unfold Team.new, Team.post_init, Team.size. simpl Team.pets.
    replace (MAX_TEAM_SIZE <? Z.of_nat (List.length pets))%Z with true
      by (symmetry; apply Z.ltb_lt; exact Hbig).
    reflexivity.
  - intros Hsmall Hmissing. unfold Team.new, Team.post_init, Team.size.
    simpl Team.pets. simpl Team.manual_speed.
    replace (MAX_TEAM_SIZE <? Z.of_nat (List.length pets))%Z with false
      by (symmetry; apply Z.ltb_ge; exact Hsmall).
    apply (any_power_missing_iff (Team.mk name pets territory None)) in Hmissing.
    rewrite Hmissing. reflexivity.
Qed.

Lemma team_construction_errors_witness :
  Team.new "Meta Team"
           [pet_of 1 "Borger"; pet_of 2 "Miasma"; pet_of 3 "Forager";
            pet_of 4 "Converter"; pet_of 5 "Alchemic"]
           None None
  = inl (Raise "A team cannot contain more than 4 pets (got 5).").
Proof.
  apply (proj1 (team_construction_errors
                  "Meta Team"
                  [pet_of 1 "Borger"; pet_of 2 "Miasma"; pet_of 3 "Forager";
                   pet_of 4 "Converter"; pet_of 5 "Alchemic"]
                  None None)).
  reflexivity.
Defined.

(** ** The requirement curve over the cycles *)



(** ** Compact numbers, band by band *)

Lemma threshold_skipped (x t : Q) (suffix : option string)
      (rest : list (Q * option string)) :
  x < t -> format_number_from x ((t, suffix) :: rest) = format_number_from x rest.
Proof.
  intros Hlt. simpl.
  destruct (Qle_bool t x) eqn:E; [| reflexivity].
  apply Qle_bool_iff in E. lra.
Qed.

Lemma threshold_taken (x t : Q) (suffix : string) (rest : list (Q * option string)) :
  t <= x ->
  format_number_from x ((t, Some suffix) :: rest)
  = (fmt_2f (x / t) ++ suffix)%string.
Proof.
  intros Hle. simpl. apply Qle_bool_iff in Hle. rewrite Hle. reflexivity.
Qed.

Ltac below_threshold Hhi :=
  eapply Qlt_le_trans; [exact Hhi | rewrite <- Zle_Qle; apply Z.leb_le; reflexivity].

Lemma format_number_band (x : Q) (k : Z) (suffix : string) :
  In (k, suffix)
     [(7, "QQQ"); (6, "QQ"); (5, "Q"); (4, "T"); (3, "B"); (2, "M"); (1, "K")]%Z%string ->
  inject_Z (10 ^ (3 * k)) <= x -> x < inject_Z (10 ^ (3 * k + 3)) ->
  format_number x = (fmt_2f (x / inject_Z (10 ^ (3 * k))) ++ suffix)%string.
Proof.
  intros Hin Hlo Hhi. unfold format_number, thresholds.
  simpl in Hin.
  repeat (destruct Hin as [Hin | Hin];
          [ inversion Hin; subst k suffix; clear Hin;
            repeat (rewrite threshold_skipped by (below_threshold Hhi));
            rewrite threshold_taken by exact Hlo; reflexivity
          | ]).
  contradiction.
Qed.



(** *** Rounding at the top of a band *)

Lemma py_round_unique (y : Q) (z : Z) :
  Qabs (y - inject_Z z) < 1 # 2 -> py_round y = z.
Proof.
  intros Hz. destruct (py_round_nearest y) as [Hr _].
  apply Qabs_Qle_condition in Hr.
  assert (Hz' : - (1 # 2) < y - inject_Z z /\ y - inject_Z z < 1 # 2).
  { split.
    - apply Qnot_le_lt. intros H.
      assert (Qabs (y - inject_Z z) == - (y - inject_Z z)) by (apply Qabs_neg; lra).
      lra.
    - pose proof (Qle_Qabs (y - inject_Z z)). lra. }
  set (r := py_round y) in *.
  assert (H1 : inject_Z r < inject_Z (z + 1)).
  { rewrite inject_Z_plus. change (inject_Z 1) with 1. lra. }
  assert (H2 : inject_Z z < inject_Z (r + 1)).
  { rewrite inject_Z_plus. change (inject_Z 1) with 1. lra. }
  rewrite <- Zlt_Qlt in H1, H2. lia.
Qed.

Lemma py_round_tie_up (y : Q) (z : Z) :
  y == inject_Z z - (1 # 2) -> Z.even z = true -> py_round y = z.
Proof.
  intros Hy Hev. destruct (py_round_nearest y) as [Hr Htie].
  set (r := py_round y) in *.
  apply Qabs_Qle_condition in Hr.
  assert (H1 : inject_Z r < inject_Z (z + 1)).
  { rewrite inject_Z_plus. change (inject_Z 1) with 1. lra. }
  assert (H2 : inject_Z (z - 2) < inject_Z r).
  { unfold Z.sub. rewrite inject_Z_plus. change (inject_Z (- (2))) with (-2). lra. }
  rewrite <- Zlt_Qlt in H1, H2.
  assert (Hcases : r = z \/ r = (z - 1)%Z) by lia.
  destruct Hcases as [-> | Er]; [reflexivity |].
  exfalso.
  assert (Habs : Qabs (y - inject_Z r) == 1 # 2).
  { rewrite Er. unfold Z.sub. rewrite inject_Z_plus.
    change (inject_Z (- (1))) with (-1).
    rewrite Qabs_pos by lra. lra. }
  specialize (Htie Habs). rewrite Er in Htie.
  rewrite Z.even_sub, Hev in Htie. discriminate.
Qed.

Lemma fmt_2f_rounds_to_thousand (y : Q) :
  999995 # 1000 <= y -> y < 1000 -> fmt_2f y = "1000.00"%string.
Proof.
  intros Hlo Hhi. unfold fmt_2f.
  assert (Hsign : Qlt_bool y 0 = false).
  { unfold Qlt_bool. assert (H : 0 <= y) by lra.
    apply Qle_bool_iff in H. rewrite H. reflexivity. }
  rewrite Hsign.
  assert (Hround : py_round (Qabs y * 100) = 100000%Z).
  { assert (Eabs : Qabs y == y) by (apply Qabs_pos; lra).
    destruct (Qeq_dec (y * 100) (inject_Z 100000 - (1 # 2))) as [Htie | Hne].
    - apply py_round_tie_up; [| reflexivity]. rewrite Eabs. exact Htie.
    - apply py_round_unique.
      change (inject_Z 100000) with 100000 in *.
      apply Qabs_case; intros Hs; rewrite Eabs in *.
      + lra.
      + assert (Hne' : ~ y * 100 == 100000 - (1 # 2)) by exact Hne.
        apply Qnot_le_lt. intros Hge. apply Hne'. lra. }
  rewrite Hround. reflexivity.
Qed.



(** ** The histories, entry by entry *)

Lemma Qlt_bool_iff (x y : Q) : Qlt_bool x y = true <-> x < y.
Proof.
  unfold Qlt_bool. destruct (Qle_bool y x) eqn:E; simpl.
  - apply Qle_bool_iff in E. split; [discriminate | intros H; lra].
  - split; [intros _ | reflexivity].
    apply Qnot_le_lt. intros H. apply Qle_bool_iff in H. congruence.
Qed.

Lemma take_lengths (n : nat) :
  forall l k i e,
    List.length (timeline l) = k -> List.length (a_yield l) = k ->
    List.length (b_yield l) = k ->
    nth_error (take n (Suspended LoopHead l)) i = Some e ->
    List.length (s_timeline e) = (k + i + 1)%nat
    /\ List.length (s_a_yield e) = (k + i + 1)%nat
    /\ List.length (s_b_yield e) = (k + i + 1)%nat.
Proof.
  induction n as [| n IH]; intros l k i e Ht Ha Hb Hnth.
  - destruct i; discriminate.
  - simpl in Hnth.
    destruct (loop_iteration l) as [[s |] g'] eqn:E; [| destruct i; discriminate].
    apply loop_iteration_yields in E. destruct E as (dt & _ & _ & _ & Hres).
    cbv zeta in Hres. destruct Hres as [Hs Hg].
    destruct i as [| j]; simpl in Hnth.
    + inversion Hnth; subst e s. simpl. rewrite !length_app. simpl. lia.
    + subst g'.
      destruct (_ && stop_at_breakeven l).
      * rewrite take_after_return in Hnth. destruct j; discriminate.
      * eapply (IH _ (S k) j e) in Hnth; simpl; try (rewrite length_app; simpl; lia).
        destruct Hnth as (H1 & H2 & H3). repeat split; lia.
Qed.

Lemma run_lengths (n : nat) (tr : Territory.t) (ta tb : Team.t) (la lb : string)
      (mh : Z) (stop : bool) (i : nat) (e : Sample) :
  nth_error (take n (simulate_progressive tr ta tb la lb mh stop)) i = Some e ->
  List.length (s_timeline e) = (i + 2)%nat
  /\ List.length (s_a_yield e) = (i + 2)%nat
  /\ List.length (s_b_yield e) = (i + 2)%nat.
Proof.
  intros Hnth. unfold simulate_progressive in Hnth.
  eapply (take_lengths n _ 1%nat i e) in Hnth; try reflexivity.
  destruct Hnth as (H1 & H2 & H3). repeat split; lia.
Qed.

Lemma take_grows (n : nat) (g : Generator) (i : nat) (e e' : Sample) :
  nth_error (take n g) i = Some e -> nth_error (take n g) (S i) = Some e' ->
  exists time ya yb,
    s_timeline e' = s_timeline e ++ [time]
    /\ s_a_yield e' = s_a_yield e ++ [ya]
    /\ s_b_yield e' = s_b_yield e ++ [yb].
Proof.
  intros Hi Hsi.
  destruct (take_after n i _ e Hi) as [l [Hl Hnext]].
  destruct (take_after n (S i) _ e' Hsi) as [l1 [Hl1 Hnext1]].
  remember (after (S i) g) as g1 eqn:Eg1.
  remember (after (S (S i)) g) as g2 eqn:Eg2.
  rewrite Hl in Hnext. rewrite Hl1 in Hnext1.
  change (gen_next (Suspended LoopHead l)) with (loop_iteration l) in Hnext.
  change (gen_next (Suspended LoopHead l1)) with (loop_iteration l1) in Hnext1.
  apply loop_iteration_yields in Hnext. destruct Hnext as (dt & _ & _ & _ & Hres).
  cbv zeta in Hres. destruct Hres as [He Hg].
  apply loop_iteration_yields in Hnext1. destruct Hnext1 as (dt1 & _ & _ & _ & Hres1).
  cbv zeta in Hres1. destruct Hres1 as [He' _].
  rewrite Hl1 in Hg. inversion Hg as [[Hpc Hl1eq]].
  exists (t l1 + dt1), (spice (advance (territory l1) dt1 (a l1))),
    (spice (advance (territory l1) dt1 (b l1))).
  rewrite He', He. rewrite Hl1eq. simpl. auto.
Qed.

(** The tuples of a run pair up position by position and grow one entry at
    a time: tuple number [i], counted from 0, has [i + 2] entries in each
    of its three lists, and each list of the next tuple is the same list
    with one entry added at the end. *)
Theorem histories_grow_by_one
        (territory : Territory.t) (team_a team_b : Team.t) (label_a label_b : string)
        (max_hours : Z) (stop : bool) (n : nat) :
  let run := take n (simulate_progressive territory team_a team_b label_a label_b
                                          max_hours stop) in
  (forall i e, nth_error run i = Some e ->
               List.length (s_timeline e) = (i + 2)%nat
               /\ List.length (s_a_yield e) = (i + 2)%nat
               /\ List.length (s_b_yield e) = (i + 2)%nat)
  /\ (forall i e e',
         nth_error run i = Some e -> nth_error run (S i) = Some e' ->
         exists time ya yb,
           s_timeline e' = s_timeline e ++ [time]
           /\ s_a_yield e' = s_a_yield e ++ [ya]
           /\ s_b_yield e' = s_b_yield e ++ [yb]).
Proof.
  intros run. split.
  - intros i e. apply run_lengths.
  - intros i e e'. apply take_grows.
Qed.

Lemma histories_grow_by_one_witness :
  List.length [0; 100 # 10; 10000 # 800] = (1 + 2)%nat.
Proof.
  apply (proj1 (histories_grow_by_one sample_territory (meta_team 10) (alchemic_team 8)
                                      "Non-Alchemic" "Alchemic" 48 true 5)
               1%nat
               (mkSample [0; 100 # 10; 10000 # 800] [0; 2 # 2; 2 # 2]
                         [0; 0; 5 # 2] (Some (10000 # 800)))
               ltac:(reflexivity)).
Defined.

(** *** Where the breakeven points *)

Lemma ahead_at_snoc_old (ay yb : list Q) (x y : Q) (j : nat) :
  List.length ay = List.length yb -> (j < List.length ay)%nat ->
  ahead_at (ay ++ [x]) (yb ++ [y]) j <-> ahead_at ay yb j.
Proof.
  intros Hlen Hj. unfold ahead_at.
  rewrite !nth_error_app1 by lia. reflexivity.
Qed.

Lemma ahead_at_snoc_new (ay yb : list Q) (x y : Q) :
  List.length ay = List.length yb ->
  ahead_at (ay ++ [x]) (yb ++ [y]) (List.length ay) <-> x < y.
Proof.
  intros Hlen. unfold ahead_at.
  rewrite (nth_error_app2 ay) by lia. rewrite (nth_error_app2 yb) by lia.
  rewrite Hlen, !Nat.sub_diag. simpl. split.
  - intros (x0 & y0 & Hx & Hy & Hlt). inversion Hx; inversion Hy; subst. exact Hlt.
  - intros Hlt. exists x, y. auto.
Qed.

Lemma ahead_at_beyond (ay yb : list Q) (j : nat) :
  (List.length ay <= j)%nat -> ~ ahead_at ay yb j.
Proof.
  intros Hj (x & y & Hx & _). apply nth_error_None in Hj. congruence.
Qed.

Lemma marked_kept (g : Generator) (s : Sample) (g' : Generator) :
  marked g -> gen_next g = (Some s, g') ->
  breakeven_marks (s_timeline s) (s_a_yield s) (s_b_yield s) (s_breakeven s)
  /\ marked g'.
Proof.
  intros Hinv Hnext.
  apply gen_next_yields in Hnext. destruct Hnext as [l [-> Hloop]].
  apply loop_iteration_yields in Hloop. destruct Hloop as (dt & _ & _ & _ & Hres).
  cbv zeta in Hres. destruct Hres as [-> ->].
  destruct Hinv as (Hta & Hab & Hmark).
  set (sa := spice (advance (territory l) dt (a l))) in *.
  set (sb := spice (advance (territory l) dt (b l))) in *.
  assert (Hnew : breakeven_marks
                   (timeline l ++ [t l + dt]) (a_yield l ++ [sa]) (b_yield l ++ [sb])
                   (if match breakeven l with
                       | Some _ => false
                       | None => Qlt_bool sa sb
                       end
                    then Some (t l + dt) else breakeven l)).
  { destruct (breakeven l) as [v |] eqn:Ebk; simpl in Hmark |- *.
    - destruct Hmark as (k & Hk & Hahead & Hbefore).
      assert (Hklt : (k < List.length (a_yield l))%nat).
      { destruct (Nat.lt_ge_cases k (List.length (a_yield l))) as [H | H]; [exact H |].
        exfalso. exact (ahead_at_beyond _ _ k H Hahead). }
      exists k. split; [rewrite nth_error_app1 by lia; exact Hk |].
      split; [apply ahead_at_snoc_old; assumption |].
      intros j Hj Hj'. apply (Hbefore j Hj).
      apply (ahead_at_snoc_old _ _ sa sb j Hab); [lia | exact Hj'].
    - destruct (Qlt_bool sa sb) eqn:Ex; simpl.
      + apply Qlt_bool_iff in Ex.
        exists (List.length (a_yield l)). split.
        * rewrite <- Hta. rewrite nth_error_app2 by lia.
          rewrite Nat.sub_diag. reflexivity.
        * split; [apply ahead_at_snoc_new; assumption |].
          intros j Hj Hj'. apply (Hmark j).
          apply (ahead_at_snoc_old _ _ sa sb j Hab); [lia | exact Hj'].
      + intros j Hj.
        destruct (Nat.lt_trichotomy j (List.length (a_yield l))) as [H | [H | H]].
        * apply (Hmark j). apply (ahead_at_snoc_old _ _ sa sb j Hab); [lia | exact Hj].
        * subst j. apply ahead_at_snoc_new in Hj; [| exact Hab].
          apply Qlt_bool_iff in Hj. congruence.
        * apply (ahead_at_beyond (a_yield l ++ [sa]) (b_yield l ++ [sb]) j);
            [rewrite length_app; simpl; lia | exact Hj]. }
  split; [exact Hnew |].
  simpl. rewrite !length_app. simpl. repeat split; try lia. exact Hnew.
Qed.

(** In every tuple the breakeven, when there is one, is the time at the
    first index at which team B's yield exceeds team A's; when there is
    none, team B is ahead at no index. *)
Theorem breakeven_marks_first_lead
        (territory : Territory.t) (team_a team_b : Team.t) (label_a label_b : string)
        (max_hours : Z) (stop : bool) (s : Sample) :
  emitted (simulate_progressive territory team_a team_b label_a label_b
                                max_hours stop) s ->
  breakeven_marks (s_timeline s) (s_a_yield s) (s_b_yield s) (s_breakeven s).
Proof.
  revert s. apply (emitted_by_invariant marked).
  - intros g s g' Hinv Hnext. exact (marked_kept g s g' Hinv Hnext).
  - simpl. repeat split.
    intros j (x & y & Hx & Hy & Hlt).
    destruct j as [| j]; simpl in Hx, Hy; [| destruct j; discriminate].
    inversion Hx; inversion Hy; subst. discriminate Hlt.
Qed.

Lemma breakeven_marks_first_lead_witness :
  breakeven_marks [0; 100 # 10; 10000 # 800] [0; 2 # 2; 2 # 2] [0; 0; 5 # 2]
                  (Some (10000 # 800)).
Proof.
  apply (breakeven_marks_first_lead
           sample_territory (meta_team 10) (alchemic_team 8)
           "Non-Alchemic" "Alchemic" 48 true
           (mkSample [0; 100 # 10; 10000 # 800] [0; 2 # 2; 2 # 2]
                     [0; 0; 5 # 2] (Some (10000 # 800)))).
  exists 2%nat. right. left. reflexivity.
Defined.

(** *** One fill at a time *)

Lemma steps_by_snoc (amount : Q) (init : list Q) (x z : Q) :
  steps_by amount (init ++ [x]) -> (z == x \/ z == x + amount) ->
  steps_by amount ((init ++ [x]) ++ [z]).
Proof.
  intros Hold Hz i u v Hi Hsi.
  destruct (Nat.lt_ge_cases (S i) (List.length (init ++ [x]))) as [Hlt | Hge].
  - rewrite nth_error_app1 in Hi by lia. rewrite nth_error_app1 in Hsi by lia.
    exact (Hold i u v Hi Hsi).
  - rewrite nth_error_app2 in Hsi by lia.
    assert (Hlen : List.length (init ++ [x]) = S (List.length init))
      by (rewrite length_app; simpl; lia).
    destruct (S i - List.length (init ++ [x]))%nat as [| k] eqn:Ek; simpl in Hsi;
      [| destruct k; discriminate].
    inversion Hsi; subst v.
    assert (Ei : i = List.length init) by lia.
    rewrite nth_error_app1 in Hi by (rewrite length_app; simpl; lia).
    rewrite nth_error_app2 in Hi by lia.
    rewrite Ei, Nat.sub_diag in Hi. simpl in Hi. inversion Hi; subst u. exact Hz.
Qed.

Lemma advance_spice (tr : Territory.t) (dt : Q) (st : TeamState) :
  alchemic (advance tr dt st) = alchemic st
  /\ (spice (advance tr dt st) == spice st
      \/ spice (advance tr dt st)
         == spice st + (1 + (1 # 2) * inject_Z (alchemic st))).
Proof.
  unfold advance. destruct (Qle_bool _ _); simpl; split; auto; [right | left]; reflexivity.
Qed.

Lemma stepping_kept (amount_a amount_b : Q) (g : Generator) (s : Sample)
      (g' : Generator) :
  stepping amount_a amount_b g -> gen_next g = (Some s, g') ->
  (steps_by amount_a (s_a_yield s) /\ steps_by amount_b (s_b_yield s))
  /\ stepping amount_a amount_b g'.
Proof.
  intros Hinv Hnext.
  apply gen_next_yields in Hnext. destruct Hnext as [l [-> Hloop]].
  apply loop_iteration_yields in Hloop. destruct Hloop as (dt & _ & _ & _ & Hres).
  cbv zeta in Hres. destruct Hres as [-> ->].
  destruct Hinv as ([ia Hia] & [ib Hib] & Haa & Hab & Hsa & Hsb).
  destruct (advance_spice (territory l) dt (a l)) as [Eala Hspa].
  destruct (advance_spice (territory l) dt (b l)) as [Ealb Hspb].
  rewrite Haa in Hspa. rewrite Hab in Hspb.
  assert (Ha' : steps_by amount_a (a_yield l ++ [spice (advance (territory l) dt (a l))])).
  { rewrite Hia. apply steps_by_snoc; [rewrite <- Hia; exact Hsa | exact Hspa]. }
  assert (Hb' : steps_by amount_b (b_yield l ++ [spice (advance (territory l) dt (b l))])).
  { rewrite Hib. apply steps_by_snoc; [rewrite <- Hib; exact Hsb | exact Hspb]. }
  split; [split; assumption |].
  simpl. rewrite Eala, Ealb.
  refine (conj (ex_intro _ (a_yield l) eq_refl)
               (conj (ex_intro _ (b_yield l) eq_refl)
                     (conj Haa (conj Hab (conj Ha' Hb'))))).
Qed.

(** A step brings a team at most one fill: from one entry of a yield list
    to the next the yield stays, or grows by exactly what a fill is worth
    to that team, 1 plus half a spice per alchemic pet. *)
Theorem one_fill_per_step
        (territory : Territory.t) (team_a team_b : Team.t) (label_a label_b : string)
        (max_hours : Z) (stop : bool) (s : Sample) :
  emitted (simulate_progressive territory team_a team_b label_a label_b
                                max_hours stop) s ->
  steps_by (fill_yield team_a) (s_a_yield s)
  /\ steps_by (fill_yield team_b) (s_b_yield s).
Proof.
  revert s.
  apply (emitted_by_invariant (stepping (fill_yield team_a) (fill_yield team_b))).
  - intros g s g' Hinv Hnext. exact (stepping_kept _ _ g s g' Hinv Hnext).
  - simpl.
    refine (conj (ex_intro _ [] eq_refl)
                 (conj (ex_intro _ [] eq_refl) (conj eq_refl (conj eq_refl _)))).
    split; intros i x y Hi Hsi; destruct i; discriminate.
Qed.

Lemma one_fill_per_step_witness :
  steps_by (fill_yield (alchemic_team 8)) [0; 0; 5 # 2].
Proof.
  apply (one_fill_per_step
           sample_territory (meta_team 10) (alchemic_team 8)
           "Non-Alchemic" "Alchemic" 48 true
           (mkSample [0; 100 # 10; 10000 # 800] [0; 2 # 2; 2 # 2]
                     [0; 0; 5 # 2] (Some (10000 # 800)))).
  exists 2%nat. right. left. reflexivity.
Defined.

(** ** A team that does not forage *)

Lemma idle_second_kept (g : Generator) (s : Sample) (g' : Generator) :
  idle_second g -> gen_next g = (Some s, g') ->
  (Forall (fun y => y = 0) (s_b_yield s) /\ s_breakeven s = None) /\ idle_second g'.
Proof.
  intros [Hord Hinv] Hnext.
  pose proof (proj2 (ordered_kept g s g' Hord Hnext)) as Hord'.
  apply gen_next_yields in Hnext. destruct Hnext as [l [-> Hloop]].
  apply loop_iteration_yields in Hloop. destruct Hloop as (dt & _ & Hmin & _ & Hres).
  cbv zeta in Hres.
  destruct Hinv as (HF & Hsb & Hspb & Hpb & Hspa & Hbk & Hall).
  destruct Hord as (HF0 & Hoka & Hokb & _).
  destruct (step_sign _ _ _ _ Hoka Hokb Hmin) as [Hdt0 _].
  destruct (advance_ok (territory l) dt (a l) HF0 Hdt0 Hoka) as [_ Hsa].
  assert (Hb' : advance (territory l) dt (b l)
                = {| spice := spice (b l); fills := fills (b l);
                     progress := progress (b l) + speed (b l) * dt;
                     speed := speed (b l); alchemic := alchemic (b l);
                     monolithic := monolithic (b l) |}).
  { unfold advance.
    destruct (Qle_bool (requirement (territory l) (b l))
                       (progress (b l) + speed (b l) * dt)) eqn:E; [| reflexivity].
    exfalso. apply Qle_bool_iff in E.
    destruct Hokb as (Hf & Hm & _).
    destruct (requirement_sign (territory l) (b l) HF0 Hf Hm) as [_ Hpos].
    specialize (Hpos (or_introl HF)).
    assert (speed (b l) * dt <= 0).
    { assert (0 <= (- speed (b l)) * dt) by (apply Qmult_le_0_compat; lra).
      assert (E1 : (- speed (b l)) * dt == - (speed (b l) * dt)) by ring.
      rewrite E1 in H. lra. }
    lra. }
  rewrite Hb', Hbk in Hres. simpl in Hres. rewrite Hspb in Hres.
  assert (Hno : Qlt_bool (spice (advance (territory l) dt (a l))) 0 = false).
  { destruct (Qlt_bool _ 0) eqn:E; [| reflexivity].
    apply Qlt_bool_iff in E. lra. }
  rewrite Hno in Hres. simpl in Hres. destruct Hres as [-> ->].
  assert (Hall' : Forall (fun y => y = 0) (b_yield l ++ [0])).
  { apply Forall_app. split; [exact Hall | constructor; [reflexivity | constructor]]. }
  split; [split; [exact Hall' | reflexivity] |].
  split.
  - exact Hord'.
  - simpl. repeat split; auto; try lra.
    assert (0 <= (- speed (b l)) * dt) by (apply Qmult_le_0_compat; lra).
    assert (E1 : (- speed (b l)) * dt == - (speed (b l) * dt)) by ring.
    rewrite E1 in H. lra.
Qed.

(** In a territory with forage of at least 1, a second team whose speed is
    0 or less never fills and never overtakes: its yield is 0 at every
    index of every tuple and the breakeven stays [None].  The page's
    default alchemic speed, 0, is such a team. *)
Theorem idle_team_never_overtakes
        (territory : Territory.t) (team_a team_b : Team.t) (label_a label_b : string)
        (max_hours : Z) (stop : bool) (s : Sample) :
  (1 <= Territory.forage territory)%Z -> Team.speed team_b <= 0 ->
  emitted (simulate_progressive territory team_a team_b label_a label_b
                                max_hours stop) s ->
  Forall (fun y => y = 0) (s_b_yield s) /\ s_breakeven s = None.
Proof.
  intros HF Hsb. revert s. apply (emitted_by_invariant idle_second).
  - intros g s g' Hinv Hnext. exact (idle_second_kept g s g' Hinv Hnext).
  - split; [apply ordered_initially; lia |].
    simpl. repeat split; auto; try lia; try apply Qle_refl.
Qed.

Lemma idle_team_never_overtakes_witness :
  Forall (fun y => y = 0) [0; 0] /\ @None Q = None.
Proof.
  apply (idle_team_never_overtakes
           sample_territory (meta_team 10) (alchemic_team 0)
           "Non-Alchemic" "Alchemic" 48 true
           (mkSample [0; 100 # 10] [0; 2 # 2] [0; 0] None)
           ltac:(discriminate) ltac:(discriminate)).
  exists 1%nat. left. reflexivity.
Defined.

(** ** A faster second team *)

Lemma initial_requirement (tr : Territory.t) (team : Team.t) :
  requirement tr (init_state team) == inject_Z (Territory.forage tr).
Proof. unfold requirement, calculate_forage_requirement, init_state. simpl. ring. Qed.

Lemma first_step_of_faster (tr : Territory.t) (ta tb : Team.t) (la lb : string)
      (mh : Z) (stop : bool) :
  (1 <= Territory.forage tr)%Z -> 0 < Team.speed tb -> Team.speed ta < Team.speed tb ->
  (inject_Z (Territory.forage tr) / Team.speed tb <= inject_Z mh ->
   exists s g',
     gen_next (simulate_progressive tr ta tb la lb mh stop) = (Some s, g')
     /\ exists v, s_breakeven s = Some v
                  /\ v == inject_Z (Territory.forage tr) / Team.speed tb
                  /\ sample_time s == inject_Z (Territory.forage tr) / Team.speed tb)
  /\ (inject_Z mh < inject_Z (Territory.forage tr) / Team.speed tb ->
      gen_next (simulate_progressive tr ta tb la lb mh stop) = (None, Exhausted)).
Proof.
  intros HF Hsb Hlt.
  pose proof (initial_requirement tr ta) as Hra.
  pose proof (initial_requirement tr tb) as Hrb.
  assert (HqF : 1 <= inject_Z (Territory.forage tr))
    by (change 1 with (inject_Z 1); rewrite <- Zle_Qle; exact HF).
  set (F := inject_Z (Territory.forage tr)) in *.
  set (dtb := (requirement tr (init_state tb) - 0) / Team.speed tb).
  assert (Hdtb : dtb == F / Team.speed tb).
  { unfold dtb. rewrite Hrb. unfold Qminus. rewrite Qplus_0_r. reflexivity. }
  assert (Hfirst : 0 < F / Team.speed tb) by (apply Qlt_shift_div_l; lra).
  assert (Hprod : Team.speed tb * dtb == F).
  { rewrite Hdtb. field. lra. }
  assert (Hnb : next_fill_time tr (init_state tb) = Fin dtb).
  { unfold next_fill_time. simpl speed. simpl progress.
    destruct (Qle_bool (Team.speed tb) 0) eqn:E; [| reflexivity].
    apply Qle_bool_iff in E. lra. }
  assert (Hmin : time_min (next_fill_time tr (init_state ta))
                          (next_fill_time tr (init_state tb)) = Fin dtb).
  { rewrite Hnb. unfold next_fill_time. simpl speed. simpl progress.
    destruct (Qle_bool (Team.speed ta) 0) eqn:E; [reflexivity |].
    assert (Hsa : 0 < Team.speed ta).
    { apply Qnot_le_lt. intros H. apply Qle_bool_iff in H. congruence. }
    simpl.
    assert (Hcmp : dtb < (requirement tr (init_state ta) - 0) / Team.speed ta).
    { rewrite Hdtb, Hra. unfold Qminus. rewrite Qplus_0_r.
      apply Qlt_shift_div_l; [exact Hsa |].
      assert (E1 : F / Team.speed tb * Team.speed ta
                   == F * (Team.speed ta / Team.speed tb)) by (field; lra).
      rewrite E1.
      assert (Team.speed ta / Team.speed tb < 1) by (apply Qlt_shift_div_r; lra).
      nra. }
    apply Qlt_bool_iff in Hcmp. rewrite Hcmp. reflexivity. }
  assert (Ha' : spice (advance tr dtb (init_state ta)) = 0).
  { unfold advance.
    destruct (Qle_bool (requirement tr (init_state ta))
                       (progress (init_state ta) + speed (init_state ta) * dtb)) eqn:E;
      [| reflexivity].
    exfalso. apply Qle_bool_iff in E. rewrite Hra in E. simpl in E.
    assert (Team.speed ta * dtb < F).
    { destruct (Qlt_le_dec 0 (Team.speed ta)) as [Hpos | Hneg].
      - assert (Team.speed ta * dtb < Team.speed tb * dtb).
        { apply Qmult_lt_compat_r; [rewrite Hdtb; exact Hfirst | exact Hlt]. }
        lra.
      - assert (0 <= (- Team.speed ta) * dtb)
          by (apply Qmult_le_0_compat; [lra | rewrite Hdtb; lra]).
        assert (E1 : (- Team.speed ta) * dtb == - (Team.speed ta * dtb)) by ring.
        rewrite E1 in H. lra. }
    lra. }
  assert (Hb' : 0 < spice (advance tr dtb (init_state tb))).
  { unfold advance.
    assert (E : Qle_bool (requirement tr (init_state tb))
                         (progress (init_state tb) + speed (init_state tb) * dtb) = true).
    { apply Qle_bool_iff. rewrite Hrb. simpl. lra. }
    rewrite E. simpl.
    pose proof (inject_Z_nonneg _ (count_genetic_nonneg tb ALCHEMIC)). lra. }
  unfold simulate_progressive, gen_next, loop_iteration.
  cbn [t max_hours territory a b breakeven timeline a_yield b_yield stop_at_breakeven].
  rewrite Hmin.
  split.
  - intros Hfits.
    assert (Hg : Qle_bool 0 (inject_Z mh) = true) by (apply Qle_bool_iff; lra).
    assert (Ho : Qlt_bool (inject_Z mh) (0 + dtb) = false).
    { destruct (Qlt_bool (inject_Z mh) (0 + dtb)) eqn:E; [| reflexivity].
      apply Qlt_bool_iff in E. lra. }
    rewrite Hg, Ho. simpl negb. cbv iota.
    assert (Hx : Qlt_bool (spice (advance tr dtb (init_state ta)))
                          (spice (advance tr dtb (init_state tb))) = true).
    { apply Qlt_bool_iff. rewrite Ha'. exact Hb'. }
    rewrite Hx. simpl andb.
    destruct stop; eexists; eexists; (split; [reflexivity |]);
      exists (0 + dtb); simpl; unfold sample_time; simpl;
      (split; [reflexivity | split; lra]).
  - intros Hlate.
    destruct (negb (Qle_bool 0 (inject_Z mh))); [reflexivity |].
    assert (Ho : Qlt_bool (inject_Z mh) (0 + dtb) = true)
      by (apply Qlt_bool_iff; lra).
    rewrite Ho. reflexivity.
Qed.



(** ** Each team forages as if alone *)

Lemma time_min_bound (x y : time) (dt : Q) :
  time_min x y = Fin dt ->
  (forall p, x = Fin p -> dt <= p) /\ (forall q, y = Fin q -> dt <= q).
Proof.
  destruct x as [p |], y as [q |]; simpl; intros H; try discriminate.
  - destruct (Qlt_bool q p) eqn:E; inversion H; subst dt.
    + apply Qlt_bool_iff in E.
      split; intros r Hr; inversion Hr; subst r; [lra | apply Qle_refl].
    + assert (~ q < p) by (intros Hc; apply Qlt_bool_iff in Hc; congruence).
      split; intros r Hr; inversion Hr; subst r; [apply Qle_refl | lra].
  - inversion H; subst dt.
    split; intros r Hr; inversion Hr; subst r. apply Qle_refl.
  - inversion H; subst dt.
    split; intros r Hr; inversion Hr; subst r. apply Qle_refl.
Qed.

Lemma solo_cycle_time_next (tr : Territory.t) (team : Team.t) (st : TeamState) :
  (0 <= fills st)%Z -> monolithic st = count_genetic team MONOLITHIC ->
  solo_cycle_time tr team (S (Z.to_nat (fills st)))
  = solo_cycle_time tr team (Z.to_nat (fills st)) + requirement tr st / Team.speed team.
Proof.
  intros Hf Hm. unfold solo_cycle_time, requirement. simpl cycle_time.
  rewrite Z2Nat.id by exact Hf. rewrite Hm. reflexivity.
Qed.

Lemma advance_on_schedule (tr : Territory.t) (team : Team.t) (now dt : Q)
      (st : TeamState) :
  (0 <= Territory.forage tr)%Z -> 0 <= dt -> state_ok tr st ->
  on_schedule tr team now st ->
  (forall p, next_fill_time tr st = Fin p -> dt <= p) ->
  on_schedule tr team (now + dt) (advance tr dt st)
  /\ (0 < Team.speed team ->
      now + dt < solo_cycle_time tr team (S (Z.to_nat (fills (advance tr dt st))))).
Proof.
  intros HF Hdt Hok (Hsp & Hmono & Halch & Hf & Hspice & Hprog) Hbound.
  destruct Hok as (_ & Hm & _ & _ & _ & _).
  pose proof (solo_cycle_time_next tr team st Hf Hmono) as Hnext.
  unfold advance.
  destruct (Qle_bool (requirement tr st) (progress st + speed st * dt)) eqn:E.
  - set (st' := {| spice := spice st + (1 + (1 # 2) * inject_Z (alchemic st));
                   fills := fills st + 1; progress := 0; speed := speed st;
                   alchemic := alchemic st; monolithic := monolithic st |}).
    assert (Hf' : (0 <= fills st')%Z) by (simpl; lia).
    assert (Hmono' : monolithic st' = count_genetic team MONOLITHIC) by exact Hmono.
    pose proof (solo_cycle_time_next tr team st' Hf' Hmono') as Hnext'.
    destruct (requirement_sign tr st' HF Hf' Hm) as [_ Hpos].
    assert (Hreq' : 0 < requirement tr st') by (apply Hpos; right; simpl; lia).
    assert (Hk : Z.to_nat (fills st') = S (Z.to_nat (fills st))).
    { simpl. rewrite Z2Nat.inj_add by lia. simpl. lia. }
    assert (Hat : 0 < Team.speed team ->
                  now + dt == solo_cycle_time tr team (S (Z.to_nat (fills st)))).
    { intros Hpos0. apply Qle_bool_iff in E.
      assert (Hs0 : 0 < speed st) by (rewrite Hsp; exact Hpos0).
      destruct (Hprog Hs0) as [Hp _].
      assert (Hle : dt <= (requirement tr st - progress st) / speed st).
      { apply Hbound. unfold next_fill_time.
        destruct (Qle_bool (speed st) 0) eqn:E0; [| reflexivity].
        apply Qle_bool_iff in E0. lra. }
      assert (Hmul : speed st * dt <= requirement tr st - progress st).
      { assert (E1 : requirement tr st - progress st
                     == speed st * ((requirement tr st - progress st) / speed st))
          by (field; lra).
        rewrite E1. rewrite (Qmult_comm (speed st) dt), (Qmult_comm (speed st) (_ / _)).
        apply Qmult_le_compat_r; lra. }
      assert (Hreq : requirement tr st
                     == speed st * (now + dt - solo_cycle_time tr team (Z.to_nat (fills st)))).
      { assert (E2 : speed st * (now + dt - solo_cycle_time tr team (Z.to_nat (fills st)))
                     == speed st * (now - solo_cycle_time tr team (Z.to_nat (fills st)))
                        + speed st * dt) by ring.
        rewrite E2, <- Hp. lra. }
      rewrite Hnext, <- Hsp, Hreq. field. lra. }
    split.
    + unfold on_schedule. fold st'. rewrite Hk.
      repeat split; try assumption.
      * simpl. rewrite inject_Z_plus, Hspice, Halch. unfold fill_yield.
        change (inject_Z 1) with 1. ring.
      * simpl. rewrite (Hat ltac:(rewrite <- Hsp; exact H)). ring.
      * rewrite (Hat ltac:(rewrite <- Hsp; exact H)). apply Qle_refl.
    + intros Hpos0. fold st'. rewrite Hnext'.
      rewrite Hk, (Hat Hpos0).
      assert (0 < requirement tr st' / Team.speed team)
        by (apply Qlt_shift_div_l; lra).
      lra.
  - assert (Hno : progress st + speed st * dt < requirement tr st).
    { apply Qnot_le_lt. intros Hc. apply Qle_bool_iff in Hc. congruence. }
    split.
    + unfold on_schedule. simpl.
      repeat split; try assumption.
      * destruct (Hprog H) as [Hp _]. rewrite Hp. ring.
      * destruct (Hprog H) as [_ Hle]. lra.
    + intros Hpos0. simpl fills. rewrite Hnext.
      assert (Hs0 : 0 < speed st) by (rewrite Hsp; exact Hpos0).
      destruct (Hprog Hs0) as [Hp _].
      assert (Hlt : speed st * (now + dt - solo_cycle_time tr team (Z.to_nat (fills st)))
                    < requirement tr st).
      { assert (E2 : speed st * (now + dt - solo_cycle_time tr team (Z.to_nat (fills st)))
                     == speed st * (now - solo_cycle_time tr team (Z.to_nat (fills st)))
                        + speed st * dt) by ring.
        rewrite E2, <- Hp. exact Hno. }
      rewrite <- Hsp.
      assert (Hdiv : now + dt - solo_cycle_time tr team (Z.to_nat (fills st))
                     < requirement tr st / speed st).
      { apply Qlt_shift_div_l; [exact Hs0 |].
        rewrite Qmult_comm. exact Hlt. }
      lra.
Qed.

Lemma on_schedule_initially (tr : Territory.t) (team : Team.t) :
  on_schedule tr team 0 (init_state team).
Proof.
  unfold on_schedule, init_state. simpl.
  repeat split; try reflexivity; try lia.
  - unfold solo_cycle_time. simpl. ring.
  - unfold solo_cycle_time. simpl. apply Qle_refl.
Qed.

Lemma scheduled_kept (tr : Territory.t) (ta tb : Team.t)
      (g : Generator) (s : Sample) (g' : Generator) :
  scheduled tr ta tb g -> gen_next g = (Some s, g') ->
  ((0 < Team.speed ta -> solo_yield tr ta (s_a_yield s) (sample_time s))
   /\ (0 < Team.speed tb -> solo_yield tr tb (s_b_yield s) (sample_time s)))
  /\ scheduled tr ta tb g'.
Proof.
  intros [Hord Hinv] Hnext.
  pose proof (proj2 (ordered_kept g s g' Hord Hnext)) as Hord'.
  apply gen_next_yields in Hnext. destruct Hnext as [l [-> Hloop]].
  apply loop_iteration_yields in Hloop. destruct Hloop as (dt & _ & Hmin & _ & Hres).
  cbv zeta in Hres. destruct Hres as [-> ->].
  destruct Hinv as (Htr & Hsa & Hsb).
  destruct Hord as (HF0 & Hoka & Hokb & _).
  destruct (step_sign _ _ _ _ Hoka Hokb Hmin) as [Hdt0 _].
  destruct (time_min_bound _ _ _ Hmin) as [Hba Hbb].
  rewrite Htr in *.
  destruct (advance_on_schedule tr ta (t l) dt (a l) HF0 Hdt0 Hoka Hsa Hba) as [Ha' Hna].
  destruct (advance_on_schedule tr tb (t l) dt (b l) HF0 Hdt0 Hokb Hsb Hbb) as [Hb' Hnb].
  split.
  - unfold solo_yield, sample_time. simpl. rewrite !last_last.
    split; intros Hpos.
    + exists (Z.to_nat (fills (advance tr dt (a l)))).
      destruct Ha' as (Hsp & _ & _ & Hf & Hspice & Hprog).
      rewrite Z2Nat.id by exact Hf.
      split; [exact Hspice |].
      split; [apply Hprog; rewrite Hsp; exact Hpos | exact (Hna Hpos)].
    + exists (Z.to_nat (fills (advance tr dt (b l)))).
      destruct Hb' as (Hsp & _ & _ & Hf & Hspice & Hprog).
      rewrite Z2Nat.id by exact Hf.
      split; [exact Hspice |].
      split; [apply Hprog; rewrite Hsp; exact Hpos | exact (Hnb Hpos)].
  - split; [exact Hord' |]. simpl. split; [reflexivity | split; assumption].
Qed.



(** ** The comparison card *)

Lemma last_item_snoc (l : list Q) (x : Q) : last_item (l ++ [x]) = inr x.
Proof. unfold last_item. rewrite rev_app_distr. reflexivity. Qed.

Lemma last_cons {A : Type} (x d : A) (l : list A) : last (x :: l) d = last l x.
Proof.
  revert x d. induction l as [| y ys IH]; intros x d; [reflexivity |].
  change (last (x :: y :: ys) d) with (last (y :: ys) d).
  rewrite (IH y d), (IH y x). reflexivity.
Qed.

(** The lists of a tuple are never empty. *)
Lemma yielded_lists (g : Generator) (s : Sample) (g' : Generator) :
  gen_next g = (Some s, g') ->
  exists tl x ay y yb z,
    s_timeline s = tl ++ [x] /\ s_a_yield s = ay ++ [y] /\ s_b_yield s = yb ++ [z].
Proof.
  intros H. apply gen_next_yields in H. destruct H as [l [_ Hloop]].
  apply loop_iteration_yields in Hloop. destruct Hloop as (dt & _ & _ & _ & Hres).
  cbv zeta in Hres. destruct Hres as [-> _]. simpl.
  do 6 eexists. repeat split; reflexivity.
Qed.

Lemma append_chart_data_row (rows : list Row) (s : Sample) (la lb : string)
      (tl ay yb : list Q) (x y z : Q) :
  s_timeline s = tl ++ [x] -> s_a_yield s = ay ++ [y] -> s_b_yield s = yb ++ [z] ->
  exists r,
    append_chart_data rows (s_timeline s) (s_a_yield s) (s_b_yield s) la lb
    = inr (rows ++ [r])
    /\ (la <> lb -> la <> "Time (Hours)"%string -> lb <> "Time (Hours)"%string ->
        r = row_of la lb s).
Proof.
  intros Ht Ha Hb. unfold row_of, sample_time. rewrite Ht, Ha, Hb, !last_last.
  unfold append_chart_data.
  destruct (tl ++ [x]) as [| x0 tl0] eqn:E; [destruct tl; discriminate |].
  rewrite <- E, !last_item_snoc.
  eexists. split; [reflexivity |].
  intros Hab Hat Hbt.
  assert (E1 : String.eqb la "Time (Hours)" = false) by (apply String.eqb_neq; exact Hat).
  assert (E2 : String.eqb lb "Time (Hours)" = false) by (apply String.eqb_neq; exact Hbt).
  assert (E3 : String.eqb lb la = false)
    by (apply String.eqb_neq; intros Hc; apply Hab; symmetry; exact Hc).
  assert (E4 : String.eqb "Time (Hours)" la = false)
    by (apply String.eqb_neq; intros Hc; apply Hat; symmetry; exact Hc).
  assert (E5 : String.eqb "Time (Hours)" lb = false)
    by (apply String.eqb_neq; intros Hc; apply Hbt; symmetry; exact Hc).
  cbn [dict_set]. rewrite E1. cbn [dict_set]. rewrite E2, E3.
  unfold dict_remove. cbn [dict_get filter fst negb].
  rewrite String.eqb_refl. cbn [negb]. rewrite E4, E5. reflexivity.
Qed.

(** The loop over a generator that is exhausted within the turns given:
    it completes, with the breakeven of the last tuple and, when there is a
    chart, a row more for each tuple. *)
Lemma chart_samples_completes (la lb : string) (turns : nat) :
  forall (g : Generator) (chart : option (list Row)) (bk : option Q),
    (List.length (take turns g) < turns)%nat ->
    exists chart',
      chart_samples turns g chart bk la lb
      = Completed (chart', last (map s_breakeven (take turns g)) bk)
      /\ (chart = None -> chart' = None)
      /\ (forall rows, chart = Some rows ->
            exists rows', chart' = Some (rows ++ rows')
                          /\ List.length rows' = List.length (take turns g)
                          /\ (la <> lb -> la <> "Time (Hours)"%string ->
                              lb <> "Time (Hours)"%string ->
                              rows' = map (row_of la lb) (take turns g))).
Proof.
  induction turns as [| turns IH]; intros g chart bk Hlen; [simpl in Hlen; lia |].
  simpl in Hlen |- *.
  destruct (gen_next g) as [[s |] g'] eqn:E.
  - simpl in Hlen. assert (Hlen' : (List.length (take turns g') < turns)%nat) by lia.
    cbn [map]. rewrite last_cons.
    destruct chart as [rows |].
    + destruct (yielded_lists g s g' E) as (tl & x & ay & y & yb & z & Ht & Ha & Hb).
      destruct (append_chart_data_row rows s la lb tl ay yb x y z Ht Ha Hb)
        as (r & Hr & Hrow).
      rewrite Hr.
      destruct (IH g' (Some (rows ++ [r])) (s_breakeven s) Hlen')
        as (chart' & Heq & _ & Hrows).
      exists chart'. split; [exact Heq |]. split; [discriminate |].
      intros rows0 Erows. inversion Erows; subst rows0.
      destruct (Hrows _ eq_refl) as (rows' & Hc & Hl & Hmap).
      exists (r :: rows'). split; [| split].
      * rewrite Hc, <- app_assoc. reflexivity.
      * simpl. rewrite Hl. reflexivity.
      * intros Hab Hat Hbt. simpl.
        rewrite (Hrow Hab Hat Hbt), (Hmap Hab Hat Hbt). reflexivity.
    + destruct (IH g' None (s_breakeven s) Hlen') as (chart' & Heq & Hnone & _).
      exists chart'. split; [exact Heq |]. split; [exact Hnone | discriminate].
  - exists chart. split; [reflexivity |]. split; [auto |].
    intros rows ->. exists []. rewrite app_nil_r. repeat split; reflexivity.
Qed.

(** The breakeven of a run's last tuple is the run's first crossing. *)
Lemma final_breakeven (n : nat) (l : Locals) :
  breakeven l = None ->
  last (map s_breakeven (take n (Suspended LoopHead l))) None
  = first_crossing (take n (Suspended LoopHead l)).
Proof.
  intros Hbk.
  pose proof (breakeven_is_first_crossing n l Hbk) as Hfirst.
  destruct (take n (Suspended LoopHead l)) as [| s0 run0]; [reflexivity |].
  destruct (@exists_last _ (s0 :: run0) ltac:(discriminate)) as (init & e & Hrun).
  rewrite Hrun in *.
  rewrite map_app. simpl map. rewrite last_last.
  rewrite (Hfirst (List.length init) e).
  - rewrite firstn_all2; [reflexivity |]. rewrite length_app. simpl. lia.
  - rewrite nth_error_app2 by lia. rewrite Nat.sub_diag. reflexivity.
Qed.

Lemma run_ends (tr : Territory.t) (ta tb : Team.t) (la lb : string) (mh : Z)
      (stop : bool) :
  (0 <= Territory.forage tr)%Z ->
  exists n, forall m,
      (List.length (take m (simulate_progressive tr ta tb la lb mh stop)) <= n)%nat.
Proof.
  intros HF.
  pose proof (ordered_initially tr ta tb la lb mh stop HF) as Hord.
  destruct (simulate_progressive tr ta tb la lb mh stop) as [pc l |] eqn:Eg;
    [| exists 0%nat; intros m; destruct m; simpl; lia].
  set (n := Z.to_nat (Qfloor (remaining l) + 1)).
  assert (Hend : after (S n) (Suspended pc l) = Exhausted).
  { apply exhausted_within; [exact Hord |].
    intros pc0 l0 El0. inversion El0; subst pc0 l0.
    pose proof (Qlt_floor (remaining l)) as Hfl.
    assert (Hn : (Qfloor (remaining l) + 1 <= Z.of_nat n)%Z) by (unfold n; lia).
    rewrite Zle_Qle in Hn. lra. }
  exists (S n). exact (take_bounded (S n) _ Hend).
Qed.

Lemma comparison_card (tr : Territory.t) (ta tb : Team.t) (la lb : string) (mh : Z)
      (show : bool) :
  (0 <= Territory.forage tr)%Z ->
  exists turns0, forall turns, (turns0 <= turns)%nat ->
    let run := take turns (simulate_progressive tr ta tb la lb mh true) in
    exists chart,
      render_territory_comparison turns tr ta tb la lb mh show
      = Completed (chart, display_breakeven (first_crossing run) la lb mh)
      /\ (show = false -> chart = None)
      /\ (show = true ->
          exists rows, chart = Some rows
                       /\ List.length rows = List.length run
                       /\ (la <> lb -> la <> "Time (Hours)"%string ->
                           lb <> "Time (Hours)"%string ->
                           rows = map (row_of la lb) run)).
Proof.
  intros HF. destruct (run_ends tr ta tb la lb mh true HF) as [n Hn].
  exists (S n). intros turns Hturns run.
  assert (Hlen : (List.length run < turns)%nat) by (specialize (Hn turns); unfold run; lia).
  destruct (chart_samples_completes la lb turns
              (simulate_progressive tr ta tb la lb mh true)
              (if show then Some [] else None) None Hlen)
    as (chart & Heq & Hnone & Hrows).
  exists chart. unfold render_territory_comparison. rewrite Heq.
  split.
  - unfold run, simulate_progressive. rewrite final_breakeven by reflexivity.
    reflexivity.
  - split.
    + intros ->. apply Hnone. reflexivity.
    + intros ->. destruct (Hrows [] eq_refl) as (rows' & Hc & Hl & Hmap).
      exists rows'. simpl in Hc. auto.
Qed.





(** ** Rows of the chart *)

Lemma last_item_nonempty (l : list Q) : l <> [] -> exists x, last_item l = inr x.
Proof.
  intros H. destruct (exists_last H) as (init & x & ->).
  exists x. apply last_item_snoc.
Qed.

(** [append_chart_data] leaves the chart alone for an empty timeline, and
    otherwise adds exactly one row; the only exception it raises is the
    [IndexError] of a yield list that is empty beside a timeline that is
    not. *)
Theorem append_chart_data_outcome
        (chart : list Row) (timeline team_a_yield team_b_yield : list Q)
        (label_a label_b : string) :
  (timeline = [] ->
   append_chart_data chart timeline team_a_yield team_b_yield label_a label_b
   = inr chart)
  /\ (timeline <> [] -> team_a_yield <> [] -> team_b_yield <> [] ->
      exists row,
        append_chart_data chart timeline team_a_yield team_b_yield label_a label_b
        = inr (chart ++ [row]))
  /\ (forall e,
         append_chart_data chart timeline team_a_yield team_b_yield label_a label_b
         = inl e
         <-> e = IndexError /\ timeline <> []
             /\ (team_a_yield = [] \/ team_b_yield = [])).
Proof.
  split; [intros ->; reflexivity |].
  split.
  - intros Ht Ha Hb. unfold append_chart_data.
    destruct (last_item_nonempty timeline Ht) as [x ->].
    destruct (last_item_nonempty team_a_yield Ha) as [y ->].
    destruct (last_item_nonempty team_b_yield Hb) as [z ->].
    destruct timeline; [contradiction |]. eexists. reflexivity.
  - intros e. unfold append_chart_data.
    destruct timeline as [| t0 tl].
    + split; [discriminate | intros (_ & H & _); contradiction].
    + destruct (last_item_nonempty (t0 :: tl) ltac:(discriminate)) as [x ->].
      destruct team_a_yield as [| y0 ay].
      * simpl. split.
        -- destruct (last_item team_b_yield); intros H; inversion H;
             (split; [reflexivity | split; [discriminate | left; reflexivity]]).
        -- intros (-> & _ & _). destruct (last_item team_b_yield); reflexivity.
      * destruct (last_item_nonempty (y0 :: ay) ltac:(discriminate)) as [y ->].
        destruct team_b_yield as [| z0 yb].
        -- simpl. split.
           ++ intros H; inversion H.
              split; [reflexivity | split; [discriminate | right; reflexivity]].
           ++ intros (-> & _ & _). reflexivity.
        -- destruct (last_item_nonempty (z0 :: yb) ltac:(discriminate)) as [z ->].
           split; [discriminate |].
           intros (_ & _ & [H | H]); discriminate.
Qed.

Lemma append_chart_data_outcome_witness :
  exists row,
    append_chart_data [] [0; 10] [0; 1] [0; 0] "Non-Alchemic" "Alchemic"
    = inr ([] ++ [row]).
Proof.
  apply (proj1 (proj2 (append_chart_data_outcome [] [0; 10] [0; 1] [0; 0]
                                                   "Non-Alchemic" "Alchemic")));
    discriminate.
Defined.

(** Labels that collide lose data: with the same label for both teams the
    row has one column, and it holds team B's yield; a first label equal
    to the name of the time column puts team A's yield in the index. *)
Theorem colliding_labels_lose_a_column
        (chart : list Row) (tl ay yb : list Q) (x y z : Q) (label : string) :
  label <> "Time (Hours)"%string ->
  append_chart_data chart (tl ++ [x]) (ay ++ [y]) (yb ++ [z]) label label
  = inr (chart ++ [mkRow (Some x) [(label, z)]])
  /\ append_chart_data chart (tl ++ [x]) (ay ++ [y]) (yb ++ [z])
                       "Time (Hours)"%string label
     = inr (chart ++ [mkRow (Some y) [(label, z)]]).
Proof.
  intros Hlt.
  assert (E1 : String.eqb label "Time (Hours)" = false)
    by (apply String.eqb_neq; exact Hlt).
  assert (E2 : String.eqb "Time (Hours)" label = false)
    by (apply String.eqb_neq; intros Hc; apply Hlt; symmetry; exact Hc).
  unfold append_chart_data.
  destruct (tl ++ [x]) as [| x0 tl0] eqn:E; [destruct tl; discriminate |].
  rewrite <- E, !last_item_snoc.
  split.
  - cbn [dict_set]. rewrite E1. cbn [dict_set]. rewrite E1.
    cbn [dict_set]. rewrite String.eqb_refl.
    unfold dict_remove. cbn [dict_get filter fst negb].
    rewrite String.eqb_refl. cbn [negb]. rewrite E2. reflexivity.
  - cbn [dict_set]. rewrite String.eqb_refl. cbn [dict_set]. rewrite E1.
    unfold dict_remove. cbn [dict_get filter fst negb].
    rewrite String.eqb_refl. cbn [negb]. rewrite E2. reflexivity.
Qed.

Lemma colliding_labels_lose_a_column_witness :
  append_chart_data [] ([0] ++ [10]) ([0] ++ [1]) ([0] ++ [5 # 2]) "Team" "Team"
  = inr ([] ++ [mkRow (Some 10) [("Team"%string, 5 # 2)]]).
Proof.
  apply (proj1 (colliding_labels_lose_a_column [] [0] [0] [0] 10 1 (5 # 2) "Team"
                                               ltac:(discriminate))).
Defined.

(** ** The banner *)

Lemma format_time_whole_hours (n : Z) :
  format_time (inject_Z n) = if (n =? 0)%Z then "0s"%string else (str_int n ++ "h")%string.
Proof.
  unfold format_time.
  assert (Hr : py_round (inject_Z n * 3600) = (n * 3600)%Z).
  { apply py_round_unique.
    assert (E : inject_Z n * 3600 - inject_Z (n * 3600) == 0)
      by (rewrite inject_Z_mult; change (inject_Z 3600) with 3600; ring).
    rewrite E. reflexivity. }
  rewrite Hr. cbv zeta.
  rewrite Z.div_mul by lia. rewrite Z.mod_mul by lia.
  change (0 / 60)%Z with 0%Z. change (0 mod 60)%Z with 0%Z.
  destruct (n =? 0)%Z; reflexivity.
Qed.

(** Without a breakeven the banner is a warning that names the budget in
    whole hours, ["48h"] for the page's 48; it names neither team.  A
    budget of 0 reads ["0s"]. *)
Theorem no_breakeven_banner (label_a label_b : string) (max_hours : Z) :
  max_hours <> 0%Z ->
  display_breakeven None label_a label_b max_hours
  = Warning ("No breakeven found within **" ++ str_int max_hours ++ "h**.")
  /\ display_breakeven None label_a label_b 0
     = Warning "No breakeven found within **0s**.".
Proof.
  intros Hn. unfold display_breakeven. rewrite !format_time_whole_hours.
  apply Z.eqb_neq in Hn. rewrite Hn. simpl (0 =? 0)%Z. cbv iota.
  split; [| reflexivity].
  rewrite (string_app_assoc (str_int max_hours) "h" "**."). reflexivity.
Qed.

Lemma no_breakeven_banner_witness :
  display_breakeven None "Non-Alchemic" "Alchemic" MAX_SIMULATION_HOURS
  = Warning "No breakeven found within **48h**.".
Proof.
  apply (proj1 (no_breakeven_banner "Non-Alchemic" "Alchemic" MAX_SIMULATION_HOURS
                                    ltac:(discriminate))).
Defined.

Lemma last_of_nones {A B : Type} (f : A -> option B) (l : list A) :
  (forall x, In x l -> f x = None) -> last (map f l) None = None.
Proof.
  induction l as [| x xs IH]; intros H; [reflexivity |].
  cbn [map]. rewrite last_cons.
  destruct xs as [| y ys]; [apply H; left; reflexivity |].
  rewrite <- (IH (fun z Hz => H z (or_intror Hz))).
  cbn [map]. rewrite !last_cons. reflexivity.
Qed.

Lemma idle_run_has_no_crossing (tr : Territory.t) (ta tb : Team.t) (la lb : string)
      (mh : Z) (stop : bool) (n : nat) :
  (1 <= Territory.forage tr)%Z -> Team.speed tb <= 0 ->
  first_crossing (take n (simulate_progressive tr ta tb la lb mh stop)) = None.
Proof.
  intros HF Hsb.
  assert (Hnone : forall s,
             In s (take n (simulate_progressive tr ta tb la lb mh stop)) ->
             s_breakeven s = None).
  { intros s Hin.
    assert (Hem : emitted (simulate_progressive tr ta tb la lb mh stop) s)
      by (exists n; exact Hin).
    clear Hin. revert s Hem.
    apply (emitted_by_invariant idle_second (fun s => s_breakeven s = None)).
    - intros g s g' Hinv Hnext.
      destruct (idle_second_kept g s g' Hinv Hnext) as [[_ H] H']. auto.
    - split; [apply ordered_initially; lia |].
      simpl. repeat split; auto; try lia; try apply Qle_refl. }
  unfold simulate_progressive in *. rewrite <- final_breakeven by reflexivity.
  apply last_of_nones. exact Hnone.
Qed.



(** ** The default teams *)

Lemma lookup_by_name (genetics : list Genetic.t) (gene : string) :
  (In gene (map Genetic.name genetics) ->
   exists g, dict_get String.eqb (build_genetics_by_name genetics) gene = Some g
             /\ Genetic.name g = gene)
  /\ (~ In gene (map Genetic.name genetics) ->
      dict_get String.eqb (build_genetics_by_name genetics) gene = None).
Proof.
  destruct (dict_by_keys String.eqb String.eqb_eq Genetic.name (fun g => g) genetics)
    as (_ & Hkeys & Hget).
  split.
  - intros Hin. apply Hkeys in Hin.
    destruct (Hget gene Hin) as (g & _ & Hname & Hg).
    exists g. split; [exact Hg | exact Hname].
  - intros Hnot. apply (dict_get_None String.eqb String.eqb_eq).
    intros Hin. apply Hnot. apply Hkeys. exact Hin.
Qed.

Lemma pets_of_genes_outcome (genetics : list Genetic.t) (genes : list string) :
  match pets_of_genes (build_genetics_by_name genetics) genes with
  | inr pets =>
      map (fun pet => Genetic.name (Pet.genetic pet)) pets = genes
      /\ Forall (fun pet => Pet.power pet = None) pets
      /\ forall gene, In gene genes -> In gene (map Genetic.name genetics)
  | inl e =>
      exists gene, e = KeyError gene /\ In gene genes
                   /\ ~ In gene (map Genetic.name genetics)
  end.
Proof.
  induction genes as [| gene rest IH]; simpl.
  - split; [reflexivity | split; [constructor | intros gene []]].
  - destruct (in_dec string_dec gene (map Genetic.name genetics)) as [Hin | Hnot].
    + destruct (proj1 (lookup_by_name genetics gene) Hin) as (g & -> & Hname).
      destruct (pets_of_genes (build_genetics_by_name genetics) rest) as [e | pets].
      * destruct IH as (gene' & -> & Hin' & Hnot').
        exists gene'. split; [reflexivity | split; [right; exact Hin' | exact Hnot']].
      * destruct IH as (Hnames & Hpow & Hall).
        split; [simpl; rewrite Hname, Hnames; reflexivity |].
        split; [constructor; [reflexivity | exact Hpow] |].
        intros gene' [<- | Hr]; [exact Hin | exact (Hall gene' Hr)].
    + rewrite (proj2 (lookup_by_name genetics gene) Hnot).
      exists gene. split; [reflexivity | split; [left; reflexivity | exact Hnot]].
Qed.

Lemma count_genetic_by_names (team : Team.t) (name : string) :
  count_genetic team name
  = Z.of_nat (List.length
                (filter (fun gene => String.eqb gene name)
                        (map (fun pet => Genetic.name (Pet.genetic pet))
                             (Team.pets team)))).
Proof.
  rewrite count_genetic_length. f_equal.
  induction (Team.pets team) as [| p ps IH]; simpl; [reflexivity |].
  destruct (String.eqb (Genetic.name (Pet.genetic p)) name); simpl; rewrite IH;
    reflexivity.
Qed.

(** Building one of the two default teams of the page from a table of
    genetics either raises [KeyError] for a default gene that no genetic
    is named after, or returns the team: it never fails validation.  The
    team has the label as name, the typed speed as speed and the default
    genes in order; the alchemic team counts 3 Alchemic pets and the meta
    team none, and neither has a Monolithic pet. *)
Theorem default_team_outcome
        (genetics : list Genetic.t) (speed : Z) (label : string) (genes : list string) :
  dict_get String.eqb DEFAULT_TEAMS label = Some genes ->
  match default_team label speed (build_genetics_by_name genetics) with
  | inr team =>
      (forall gene, In gene genes -> In gene (map Genetic.name genetics))
      /\ Team.name team = label
      /\ Team.speed team = inject_Z speed
      /\ map (fun pet => Genetic.name (Pet.genetic pet)) (Team.pets team) = genes
      /\ count_genetic team ALCHEMIC
         = (if String.eqb label ALCHEMIC_TEAM then 3 else 0)%Z
      /\ count_genetic team MONOLITHIC = 0%Z
  | inl e =>
      exists gene, e = KeyError gene /\ In gene genes
                   /\ ~ In gene (map Genetic.name genetics)
  end.
Proof.
  intros Hlabel. unfold default_team. rewrite Hlabel.
  pose proof (pets_of_genes_outcome genetics genes) as Hpets.
  destruct (pets_of_genes (build_genetics_by_name genetics) genes) as [e | pets];
    [exact Hpets |].
  destruct Hpets as (Hnames & _ & Hall).
  assert (Hcases : (label = META_TEAM
                    /\ genes = ["Borger"; "Miasma"; "Forager"; "Converter"]%string)
                   \/ (label = ALCHEMIC_TEAM
                       /\ genes = ["Alchemic"; "Alchemic"; "Alchemic"; "Converter"]%string)).
  { unfold DEFAULT_TEAMS in Hlabel. cbn [dict_get] in Hlabel.
    destruct (String.eqb label META_TEAM) eqn:E1.
    - apply String.eqb_eq in E1. inversion Hlabel. left. split; [exact E1 | reflexivity].
    - destruct (String.eqb label ALCHEMIC_TEAM) eqn:E2; [| discriminate].
      apply String.eqb_eq in E2. inversion Hlabel. right.
      split; [exact E2 | reflexivity]. }
  assert (Hlen : List.length pets = 4%nat).
  { rewrite <- (length_map (fun pet => Genetic.name (Pet.genetic pet))), Hnames.
    destruct Hcases as [[_ ->] | [_ ->]]; reflexivity. }
  assert (Hpost : Team.post_init (Team.mk label pets None (Some (inject_Z speed)))
                  = inr tt).
  { unfold Team.post_init, Team.size. cbn [Team.pets Team.manual_speed].
    rewrite Hlen. reflexivity. }
  unfold Team.new. rewrite Hpost.
  split; [exact Hall |].
  split; [reflexivity |].
  split; [reflexivity |].
  split; [exact Hnames |].
  rewrite !count_genetic_by_names. cbn [Team.pets]. rewrite Hnames.
  destruct Hcases as [[-> ->] | [-> ->]]; split; reflexivity.
Qed.

Lemma default_team_outcome_witness :
  match default_team ALCHEMIC_TEAM 10
          (build_genetics_by_name [Genetic.mk 1 "Converter"; Genetic.mk 2 "Alchemic"]) with
  | inr team =>
      (forall gene, In gene ["Alchemic"; "Alchemic"; "Alchemic"; "Converter"]%string ->
                    In gene (map Genetic.name
                                 [Genetic.mk 1 "Converter"; Genetic.mk 2 "Alchemic"]))
      /\ Team.name team = ALCHEMIC_TEAM
      /\ Team.speed team = inject_Z 10
      /\ map (fun pet => Genetic.name (Pet.genetic pet)) (Team.pets team)
         = ["Alchemic"; "Alchemic"; "Alchemic"; "Converter"]%string
      /\ count_genetic team ALCHEMIC
         = (if String.eqb ALCHEMIC_TEAM ALCHEMIC_TEAM then 3 else 0)%Z
      /\ count_genetic team MONOLITHIC = 0%Z
  | inl e =>
      exists gene, e = KeyError gene
                   /\ In gene ["Alchemic"; "Alchemic"; "Alchemic"; "Converter"]%string
                   /\ ~ In gene (map Genetic.name
                                     [Genetic.mk 1 "Converter"; Genetic.mk 2 "Alchemic"])
  end.
Proof.
  apply (default_team_outcome
           [Genetic.mk 1 "Converter"; Genetic.mk 2 "Alchemic"] 10 ALCHEMIC_TEAM
           ["Alchemic"; "Alchemic"; "Alchemic"; "Converter"]%string).
  reflexivity.
Defined.
